(** * Finite-volume operator assembly of py-tdgl ([tdgl/finite_volume/matrices.py])

    A shallow embedding of the four sparse-operator builders
    ([build_divergence], [build_gradient], [build_laplacian],
    [build_neumann_boundary_laplacian]) and of the [MatrixBuilder] facade,
    with the state line that the viewer prints ([get_state_string] of
    [tdgl/visualization/io.py]).

    Conventions of the embedding.
    - float64 values are idealised as real numbers [R] and complex128 values
      as pairs of reals; rounding is not modelled.  The order in which numpy
      and scipy add values is therefore not observable here.
    - integer index arrays hold [Z] (numpy integers may be negative);
    - a Python exception is a value [Raise e] of the [result] monad;
    - a scipy sparse matrix is represented by the COO triplets it was built
      from; duplicates are summed when an entry is read ([entry]) or when the
      matrix is applied to a vector ([matvec]), as scipy does on conversion;
    - ndarrays held by a [MatrixBuilder] live in a store and are addressed by
      location, so that aliasing and [np.copy] can be told apart. *)

From Stdlib Require Import Reals Lra.
From stdpp Require Import base option list strings gmap pretty.

(** ** Python exceptions and the result monad *)

Inductive exn : Type :=
| ValueError
| IndexError
| TypeError
| SystemError (* unreachable from Python: a dangling store reference *).

Inductive result (A : Type) : Type :=
| Ok (a : A)
| Raise (e : exn).
Arguments Ok {A} a.
Arguments Raise {A} e.

#[global] Instance exn_eq_dec : EqDecision exn.
Proof. solve_decision. Defined.

#[global] Instance result_ret : MRet result := @Ok.
#[global] Instance result_bind : MBind result :=
  λ A B f r, match r with Ok a => f a | Raise e => Raise e end.
#[global] Instance result_fmap : FMap result :=
  λ A B f r, match r with Ok a => Ok (f a) | Raise e => Raise e end.

Definition is_Ok {A} (r : result A) : Prop := ∃ a, r = Ok a.

(** ** Complex numbers over the reals *)

Module Cplx.
Local Open Scope R_scope.

Record C : Type := mkC { Re : R; Im : R }.

Definition RtoC (x : R) : C := mkC x 0.
Definition C0 : C := RtoC 0.
Definition C1 : C := RtoC 1.
Definition Ci : C := mkC 0 1.

Definition Cplus (z w : C) : C := mkC (Re z + Re w) (Im z + Im w).
Definition Copp (z : C) : C := mkC (- Re z) (- Im z).
Definition Cminus (z w : C) : C := Cplus z (Copp w).
Definition Cmult (z w : C) : C :=
  mkC (Re z * Re w - Im z * Im w) (Re z * Im w + Im z * Re w).
Definition Cconj (z : C) : C := mkC (Re z) (- Im z).
Definition Cnorm2 (z : C) : R := Re z * Re z + Im z * Im z.
Definition Cinv (z : C) : C := mkC (Re z / Cnorm2 z) (- Im z / Cnorm2 z).
Definition Cdiv (z w : C) : C := Cmult z (Cinv w).
(** [np.exp] on a complex argument. *)
Definition Cexp (z : C) : C := mkC (exp (Re z) * cos (Im z)) (exp (Re z) * sin (Im z)).

Definition Csum (l : list C) : C := foldr Cplus C0 l.

End Cplx.
Export Cplx.

(** ** The fragment of numpy and scipy.sparse used by the assembly

    One-dimensional numeric arrays carry their dtype: float64 or complex128.
    Arithmetic between them promotes to complex128 as numpy does. *)

Inductive ndarray : Type :=
| F64 (xs : list R)
| C128 (xs : list C).

Definition as_complex (a : ndarray) : list C :=
  match a with
  | F64 xs => RtoC <$> xs
  | C128 xs => xs
  end.

Definition np_len (a : ndarray) : nat :=
  match a with
  | F64 xs => length xs
  | C128 xs => length xs
  end.

Definition is_real (a : ndarray) : bool :=
  match a with
  | F64 _ => true
  | C128 _ => false
  end.

(** Element-wise application with numpy broadcasting along the first axis:
    equal lengths pair up, a length-one operand is stretched, anything else
    is "operands could not be broadcast together". *)
Definition broadcast {A B D} (f : A → B → D) (a : list A) (b : list B)
  : result (list D) :=
  if decide (length a = length b) then Ok (zip_with f a b)
  else match a, b with
       | [u], _ => Ok (f u <$> b)
       | _, [v] => Ok ((λ u, f u v) <$> a)
       | _, _ => Raise ValueError
       end.

Definition np_binop (fR : R → R → R) (fC : C → C → C) (a b : ndarray)
  : result ndarray :=
  match a, b with
  | F64 u, F64 v => F64 <$> broadcast fR u v
  | _, _ => C128 <$> broadcast fC (as_complex a) (as_complex b)
  end.

Definition np_multiply : ndarray → ndarray → result ndarray := np_binop Rmult Cmult.
Definition np_divide : ndarray → ndarray → result ndarray := np_binop Rdiv Cdiv.

Definition np_map (fR : R → R) (fC : C → C) (a : ndarray) : ndarray :=
  match a with
  | F64 xs => F64 (fR <$> xs)
  | C128 xs => C128 (fC <$> xs)
  end.

Definition np_negative : ndarray → ndarray := np_map Ropp Copp.
Definition np_conjugate : ndarray → ndarray := np_map (λ u, u) Cconj.
Definition np_ones (n : nat) : ndarray := F64 (replicate n 1%R).
Definition np_arange (n : nat) : list Z := Z.of_nat <$> seq 0 n.

(** [np.concatenate] of two value arrays; the result is complex as soon as
    one operand is. *)
Definition np_concatenate2 (a b : ndarray) : ndarray :=
  match a, b with
  | F64 u, F64 v => F64 (u ++ v)
  | _, _ => C128 (as_complex a ++ as_complex b)
  end.

Definition np_concatenate (l : list ndarray) : ndarray :=
  foldr np_concatenate2 (F64 []) l.

(** [a[i]] inside an integer-array index: negative positions count from the
    end, anything outside [-len, len) is an IndexError. *)
Definition getitem {A} (a : list A) (i : Z) : result A :=
  let n := Z.of_nat (length a) in
  let k := if decide (i < 0)%Z then (i + n)%Z else i in
  if decide (0 ≤ k < n)%Z then
    match a !! Z.to_nat k with
    | Some v => Ok v
    | None => Raise IndexError
    end
  else Raise IndexError.

(** [a[idx]] with an integer array [idx]. *)
Definition np_take {A} (a : list A) (idx : list Z) : result (list A) :=
  mapM (getitem a) idx.

(** [a[mask]] with a boolean array. *)
Fixpoint compress {A} (mask : list bool) (a : list A) : list A :=
  match mask, a with
  | b :: mask', v :: a' => if b then v :: compress mask' a' else compress mask' a'
  | _, _ => []
  end.

Definition np_mask {A} (a : list A) (mask : list bool) : result (list A) :=
  if decide (length mask = length a) then Ok (compress mask a)
  else Raise IndexError.

Definition np_mask_values (a : ndarray) (mask : list bool) : result ndarray :=
  match a with
  | F64 xs => F64 <$> np_mask xs mask
  | C128 xs => C128 <$> np_mask xs mask
  end.

Definition compress_values (mask : list bool) (a : ndarray) : ndarray :=
  match a with
  | F64 xs => F64 (compress mask xs)
  | C128 xs => C128 (compress mask xs)
  end.

(** [np.isin(element, test_elements, invert=True)]. *)
Definition np_isin_invert (element test_elements : list Z) : list bool :=
  (λ r, bool_decide (r ∉ test_elements)) <$> element.

(** A sparse matrix, held as the COO triplets it is constructed from.  The
    csr, csc and lil formats differ in storage only and share this model. *)
Record spmatrix : Type := SpMatrix {
  shape : nat * nat;
  row : list Z;
  col : list Z;
  data : ndarray
}.

Definition index_ok (n : nat) (i : Z) : bool :=
  bool_decide (0 ≤ i < Z.of_nat n)%Z.

(** [sp.csr_matrix((values, (rows, cols)), shape=...)] and its csc twin: the
    three arrays must have one length and every index must lie inside the
    shape, otherwise scipy raises ValueError. *)
Definition coo_matrix (values : ndarray) (rows cols : list Z) (shp : nat * nat)
  : result spmatrix :=
  if decide (length rows = length cols ∧ length rows = np_len values) then
    if forallb (index_ok shp.1) rows && forallb (index_ok shp.2) cols
    then Ok (SpMatrix shp rows cols values)
    else Raise ValueError
  else Raise ValueError.

(** The stored triplets and the two ways a matrix is observed. *)
Definition triplets (m : spmatrix) : list (Z * Z * C) :=
  zip (zip (row m) (col m)) (as_complex (data m)).

Definition entry_term (i j : Z) (t : Z * Z * C) : C :=
  if decide (t.1.1 = i ∧ t.1.2 = j) then t.2 else C0.

(** The entry [m[i, j]]: duplicates are summed. *)
Definition entry (m : spmatrix) (i j : Z) : C :=
  Csum (entry_term i j <$> triplets m).

Definition vec_get (v : list C) (j : Z) : C :=
  if decide (0 ≤ j)%Z then default C0 (v !! Z.to_nat j) else C0.

Definition matvec_term (v : list C) (i : Z) (t : Z * Z * C) : C :=
  if decide (t.1.1 = i) then Cmult t.2 (vec_get v t.1.2) else C0.

(** Component [i] of the product [m @ v], for [v] of length [(shape m).2]. *)
Definition matvec (m : spmatrix) (v : list C) (i : Z) : C :=
  Csum (matvec_term v i <$> triplets m).

(** [m @ v] for a one-dimensional [v]: one component per row of [m]; scipy
    raises ValueError (dimension mismatch) unless [v] has one component
    per column. *)
Definition matmul (m : spmatrix) (v : list C) : result (list C) :=
  if decide (length v = (shape m).2)
  then Ok ((λ i, matvec m v (Z.of_nat i)) <$> seq 0 (shape m).1)
  else Raise ValueError.

(** [m[idx, :] = 0] on the lil format: the index array is normalised like any
    integer index, then every stored entry of those rows is removed. *)
Definition normalize_index (n : nat) (i : Z) : result Z :=
  let k := if decide (i < 0)%Z then (i + Z.of_nat n)%Z else i in
  if decide (0 ≤ k < Z.of_nat n)%Z then Ok k else Raise IndexError.

Definition lil_zero_rows (m : spmatrix) (idx : list Z) : result spmatrix :=
  ks ← mapM (normalize_index (shape m).1) idx;
  let keep := np_isin_invert (row m) ks in
  Ok (SpMatrix (shape m) (compress keep (row m)) (compress keep (col m))
        (compress_values keep (data m))).

(** ** The mesh *)

(** Modelled from the spec: the [EdgeMesh] class of [tdgl/finite_volume]
    is not part of the sources at hand; the fields are the accessors the
    assembly reads (spec, section 3): endpoint pairs, primal and dual edge
    lengths, direction vectors and the boundary-edge index subset. *)
Record EdgeMesh : Type := {
  edges : list (Z * Z);
  edge_lengths : list R;
  dual_edge_lengths : list R;
  directions : list (R * R);
  boundary_edge_indices : list Z
}.

(** Modelled from the spec: the [Mesh] class ([.mesh]) is not part of the
    sources at hand; [x] holds one coordinate per site (only its length is
    read), [areas] the dual area of each site. *)
Record Mesh : Type := {
  x : list R;
  areas : list R;
  edge_mesh : EdgeMesh
}.

(** What a parameter annotated [Union[np.ndarray, None]] holds here: [None],
    an array, or the zero-dimensional object array that [np.copy(None)]
    returns. *)
Inductive pyarg (A : Type) : Type :=
| PyNone
| PyArray (a : A)
| PyObject0.
Arguments PyNone {A}.
Arguments PyArray {A} a.
Arguments PyObject0 {A}.

Definition is_None {A} (v : pyarg A) : bool :=
  match v with
  | PyNone => true
  | _ => false
  end.

(** ** The operators *)

(** [build_divergence] *)
Definition build_divergence (mesh : Mesh) : result spmatrix :=
  let edge_mesh := mesh.(edge_mesh) in
  let edge_indices := np_arange (length edge_mesh.(edges)) in
  let weights := edge_mesh.(dual_edge_lengths) in
  let edges0 := edge_mesh.(edges).*1 in
  let edges1 := edge_mesh.(edges).*2 in
  let rows := edges0 ++ edges1 in
  let cols := edge_indices ++ edge_indices in
  areas0 ← np_take mesh.(areas) edges0;
  values0 ← broadcast Rdiv weights areas0;
  areas1 ← np_take mesh.(areas) edges1;
  values1 ← broadcast Rdiv (Ropp <$> weights) areas1;
  coo_matrix (F64 (values0 ++ values1)) rows cols
    (length mesh.(x), length edge_mesh.(edges)).

(** [(np.asarray(link_exponents) * edge_mesh.directions).sum(axis=1)] for an
    array of two-component rows. *)
Definition dot2 (a d : R * R) : R := (a.1 * d.1 + a.2 * d.2)%R.

(** [np.exp(-1j * s)] *)
Definition phase (s : R) : C := Cexp (Cmult (Copp Ci) (RtoC s)).

(** The [link_variable_weights] of [build_gradient] and [build_laplacian].
    With the object array of [np.copy(None)] the product [None * float]
    raises TypeError at the first element; over an empty [directions] no
    element is multiplied and the object-dtype result is refused later, by
    broadcasting or by the sparse constructor, with ValueError. *)
Definition link_weights (edge_mesh : EdgeMesh)
    (link_exponents : pyarg (list (R * R))) (n : nat) : result ndarray :=
  match link_exponents with
  | PyNone => Ok (np_ones n)
  | PyArray le =>
      s ← broadcast dot2 le edge_mesh.(directions);
      Ok (C128 (phase <$> s))
  | PyObject0 =>
      match edge_mesh.(directions) with
      | [] => Raise ValueError
      | _ :: _ => Raise TypeError
      end
  end.

(** [build_gradient] *)
Definition build_gradient (mesh : Mesh) (link_exponents : pyarg (list (R * R)))
  : result spmatrix :=
  let edge_mesh := mesh.(edge_mesh) in
  let edge_indices := np_arange (length edge_mesh.(edges)) in
  let weights := Rdiv 1 <$> edge_mesh.(edge_lengths) in
  link_variable_weights ← link_weights edge_mesh link_exponents (length weights);
  let rows := edge_indices ++ edge_indices in
  let cols := edge_mesh.(edges).*2 ++ edge_mesh.(edges).*1 in
  values0 ← np_multiply link_variable_weights (F64 weights);
  let values := np_concatenate [values0; F64 (Ropp <$> weights)] in
  coo_matrix values rows cols (length edge_mesh.(edges), length mesh.(x)).

(** Lines 93-121 of [build_laplacian]: the triplets of the general assembly
    after the fixed rows have been masked out, with the mask. *)
Definition laplacian_free_triplets (mesh : Mesh)
    (link_exponents : pyarg (list (R * R))) (fixed_sites : pyarg (list Z))
    (free_rows : option (list bool))
  : result (list Z * list Z * ndarray * list bool) :=
  let edge_mesh := mesh.(edge_mesh) in
  weights ← broadcast Rdiv edge_mesh.(dual_edge_lengths) edge_mesh.(edge_lengths);
  link_variable_weights ← link_weights edge_mesh link_exponents (length weights);
  let edges0 := edge_mesh.(edges).*1 in
  let edges1 := edge_mesh.(edges).*2 in
  let rows := edges0 ++ edges1 ++ edges0 ++ edges1 in
  let cols := edges1 ++ edges0 ++ edges0 ++ edges1 in
  areas0 ← np_take mesh.(areas) edges0;
  areas1 ← np_take mesh.(areas) edges1;
  w_lv ← np_multiply (F64 weights) link_variable_weights;
  values0 ← np_divide w_lv (F64 areas0);
  w_lvc ← np_multiply (F64 weights) (np_conjugate link_variable_weights);
  values1 ← np_divide w_lvc (F64 areas1);
  values2 ← broadcast Rdiv (Ropp <$> weights) areas0;
  values3 ← broadcast Rdiv (Ropp <$> weights) areas1;
  let values := np_concatenate [values0; values1; F64 values2; F64 values3] in
  let free_rows :=
    match free_rows with
    | Some mask => mask
    | None =>
        match fixed_sites with
        | PyArray fs => np_isin_invert rows fs
        | _ => (λ _, true) <$> rows
        end
    end in
  rows ← np_mask rows free_rows;
  cols ← np_mask cols free_rows;
  values ← np_mask_values values free_rows;
  Ok (rows, cols, values, free_rows).

(** [build_laplacian].  A missing [fixed_sites] stands for the empty integer
    array; the zero-dimensional object array passes [np.isin] (nothing
    compares equal to [None]) and is refused by [np.concatenate]. *)
Definition build_laplacian (mesh : Mesh)
    (link_exponents : pyarg (list (R * R))) (fixed_sites : pyarg (list Z))
    (free_rows : option (list bool)) (fixed_sites_eigenvalues : R)
  : result (spmatrix * list bool) :=
  let fixed_sites :=
    match fixed_sites with
    | PyNone => PyArray []
    | other => other
    end in
  '(rows, cols, values, free_rows) ←
    laplacian_free_triplets mesh link_exponents fixed_sites free_rows;
  match fixed_sites with
  | PyArray fs =>
      let rows := rows ++ fs in
      let cols := cols ++ fs in
      let values :=
        np_concatenate2 values
          (np_map (Rmult fixed_sites_eigenvalues)
                  (Cmult (RtoC fixed_sites_eigenvalues))
                  (np_ones (length fs))) in
      laplacian ← coo_matrix values rows cols (length mesh.(x), length mesh.(x));
      Ok (laplacian, free_rows)
  | _ => Raise ValueError
  end.

(** [build_neumann_boundary_laplacian].  An index that is the object array
    of [np.copy(None)] is refused by the lil assignment with IndexError. *)
Definition build_neumann_boundary_laplacian (mesh : Mesh)
    (fixed_sites : pyarg (list Z)) : result spmatrix :=
  let edge_mesh := mesh.(edge_mesh) in
  let boundary_index := np_arange (length edge_mesh.(boundary_edge_indices)) in
  boundary_edges ← np_take edge_mesh.(edges) edge_mesh.(boundary_edge_indices);
  boundary_edges_length ←
    np_take edge_mesh.(edge_lengths) edge_mesh.(boundary_edge_indices);
  let rows := boundary_edges.*1 ++ boundary_edges.*2 in
  let cols := boundary_index ++ boundary_index in
  areas0 ← np_take mesh.(areas) boundary_edges.*1;
  values0 ← broadcast Rdiv boundary_edges_length (Rmult 2 <$> areas0);
  areas1 ← np_take mesh.(areas) boundary_edges.*2;
  values1 ← broadcast Rdiv boundary_edges_length (Rmult 2 <$> areas1);
  neumann_laplacian ←
    coo_matrix (F64 (values0 ++ values1)) rows cols
      (length mesh.(x), length boundary_index);
  match fixed_sites with
  | PyNone => Ok neumann_laplacian
  | PyArray fs => lil_zero_rows neumann_laplacian fs
  | PyObject0 => Raise IndexError
  end.

(** ** The [MatrixBuilder] facade *)

(** Modelled from the spec: the [MatrixType] enumeration of [tdgl/enums.py]
    is not part of the sources at hand; the spec (section 4.5) gives it as
    the closed enumeration of these four members. *)
Inductive MatrixType : Type :=
| LAPLACIAN
| NEUMANN_BOUNDARY_LAPLACIAN
| DIVERGENCE
| GRADIENT.

(** The argument of [build] is an arbitrary Python value: a member of the
    enumeration or anything else (recorded by its [repr]). *)
Inductive pyvalue : Type :=
| Member (t : MatrixType)
| Other (repr : string).

Definition loc : Type := positive.

(** An ndarray object of the store: a proper array, or the zero-dimensional
    object array wrapping [None]. *)
Inductive ndobject (A : Type) : Type :=
| NdArray (a : A)
| NdObject0.
Arguments NdArray {A} a.
Arguments NdObject0 {A}.

(** The attributes of a [MatrixBuilder] instance; [None] is Python's [None],
    [Some l] a reference to an object of the store. *)
Record MatrixBuilder : Type := {
  mesh : loc;
  fixed_sites : option loc;
  fixed_sites_eigenvalue : R;
  link_exponents : option loc
}.

Record store : Type := Store {
  meshes : gmap loc Mesh;
  int_arrays : gmap loc (ndobject (list Z));
  float_arrays : gmap loc (ndobject (list (R * R)));
  builders : gmap loc MatrixBuilder
}.

Definition py (A : Type) : Type := store → result (A * store).

Definition find {V} (h : gmap loc V) (l : loc) : result V :=
  match h !! l with
  | Some v => Ok v
  | None => Raise SystemError
  end.

(** Reading an attribute that holds [None] or an ndarray reference. *)
Definition load {A} (h : gmap loc (ndobject A)) (r : option loc)
  : result (pyarg A) :=
  match r with
  | None => Ok PyNone
  | Some l =>
      o ← find h l;
      match o with
      | NdArray a => Ok (PyArray a)
      | NdObject0 => Ok PyObject0
      end
  end.

Definition alloc {V} (h : gmap loc V) (v : V) : loc * gmap loc V :=
  let l := fresh (dom h) in (l, <[l := v]> h).

(** [MatrixBuilder.__init__] *)
Definition MatrixBuilder_init (mesh : loc) : py loc := λ σ,
  let '(self, bs) :=
    alloc σ.(builders)
      {| mesh := mesh; fixed_sites := None; fixed_sites_eigenvalue := 1%R;
         link_exponents := None |} in
  Ok (self, Store σ.(meshes) σ.(int_arrays) σ.(float_arrays) bs).

(** A [Sequence] argument: a Python list, converted by [np.asarray] into a
    new array, or an ndarray, which [np.asarray] returns as it is. *)
Inductive pysequence (A : Type) : Type :=
| PyList (l : A)
| NdArrayRef (r : loc).
Arguments PyList {A} l.
Arguments NdArrayRef {A} r.

Definition np_asarray {A} (h : gmap loc (ndobject A)) (s : pysequence A)
  : loc * gmap loc (ndobject A) :=
  match s with
  | PyList l => alloc h (NdArray l)
  | NdArrayRef r => (r, h)
  end.

(** [np.copy]: always a new object; [np.copy(None)] is the zero-dimensional
    object array. *)
Definition np_copy {A} (h : gmap loc (ndobject A)) (r : option loc)
  : result (loc * gmap loc (ndobject A)) :=
  match r with
  | None => Ok (alloc h NdObject0)
  | Some l => o ← find h l; Ok (alloc h o)
  end.

(** [MatrixBuilder.with_dirichlet_boundary] *)
Definition with_dirichlet_boundary (self : loc)
    (fixed_sites : pysequence (list Z)) (fixed_sites_eigenvalues : R)
  : py loc := λ σ,
  b ← find σ.(builders) self;
  let '(a, ints) := np_asarray σ.(int_arrays) fixed_sites in
  let b' := {| mesh := b.(mesh); fixed_sites := Some a;
               fixed_sites_eigenvalue := fixed_sites_eigenvalues;
               link_exponents := b.(link_exponents) |} in
  Ok (self, Store σ.(meshes) ints σ.(float_arrays) (<[self := b']> σ.(builders))).

(** [MatrixBuilder.with_link_exponents] *)
Definition with_link_exponents (self : loc)
    (link_exponents : pysequence (list (R * R))) : py loc := λ σ,
  b ← find σ.(builders) self;
  let '(a, floats) := np_asarray σ.(float_arrays) link_exponents in
  let b' := {| mesh := b.(mesh); fixed_sites := b.(fixed_sites);
               fixed_sites_eigenvalue := b.(fixed_sites_eigenvalue);
               link_exponents := Some a |} in
  Ok (self, Store σ.(meshes) σ.(int_arrays) floats (<[self := b']> σ.(builders))).

(** What [build] returns: a matrix, or for the Laplacian the pair of the
    matrix and the free-row mask. *)
Inductive build_output : Type :=
| RetMatrix (m : spmatrix)
| RetTuple (m : spmatrix) (free_rows : list bool).

(** [MatrixBuilder.build]; it reads the store and leaves it unchanged. *)
Definition build (self : loc) (matrix_type : pyvalue)
    (free_rows : option (list bool)) (σ : store) : result build_output :=
  b ← find σ.(builders) self;
  match matrix_type with
  | Member LAPLACIAN =>
      m ← find σ.(meshes) b.(mesh);
      le ← load σ.(float_arrays) b.(link_exponents);
      fs ← load σ.(int_arrays) b.(fixed_sites);
      '(laplacian, mask) ←
        build_laplacian m le fs free_rows b.(fixed_sites_eigenvalue);
      Ok (RetTuple laplacian mask)
  | Member NEUMANN_BOUNDARY_LAPLACIAN =>
      m ← find σ.(meshes) b.(mesh);
      fs ← load σ.(int_arrays) b.(fixed_sites);
      RetMatrix <$> build_neumann_boundary_laplacian m fs
  | Member DIVERGENCE =>
      m ← find σ.(meshes) b.(mesh);
      RetMatrix <$> build_divergence m
  | Member GRADIENT =>
      m ← find σ.(meshes) b.(mesh);
      le ← load σ.(float_arrays) b.(link_exponents);
      RetMatrix <$> build_gradient m le
  | Other _ => Raise ValueError
  end.

(** [MatrixBuilder.clone] *)
Definition clone (self : loc) : py loc := λ σ,
  b ← find σ.(builders) self;
  '(c, σ) ← MatrixBuilder_init b.(mesh) σ;
  '(fs, ints) ← np_copy σ.(int_arrays) b.(fixed_sites);
  '(le, floats) ← np_copy σ.(float_arrays) b.(link_exponents);
  let b' := {| mesh := b.(mesh); fixed_sites := Some fs;
               fixed_sites_eigenvalue := b.(fixed_sites_eigenvalue);
               link_exponents := Some le |} in
  Ok (c, Store σ.(meshes) ints floats (<[c := b']> σ.(builders))).

(** In-place assignment [attribute[i] = v] through a builder attribute, e.g.
    [builder.fixed_sites[i] = v]: every alias of the array sees it.  [None]
    does not support item assignment, and a position outside the array (or
    any position of a zero-dimensional array) is an IndexError. *)
Definition ndarray_setitem {A} (h : gmap loc (ndobject (list A)))
    (r : option loc) (i : nat) (v : A) : result (gmap loc (ndobject (list A))) :=
  match r with
  | None => Raise TypeError
  | Some l =>
      o ← find h l;
      match o with
      | NdArray a =>
          if decide (i < length a) then Ok (<[l := NdArray (<[i := v]> a)]> h)
          else Raise IndexError
      | NdObject0 => Raise IndexError
      end
  end.

(** What a caller can do to the fixed sites and link exponents of a
    builder: rebind them through the [with_*] methods, or write into the
    arrays in place. *)
Inductive mutation : Type :=
| SetDirichlet (s : pysequence (list Z)) (E : R)
| SetLinkExponents (s : pysequence (list (R * R)))
| AssignFixedSite (i : nat) (v : Z)
| AssignLinkExponent (i : nat) (v : R * R).

Definition mutate (self : loc) (μ : mutation) : py loc := λ σ,
  match μ with
  | SetDirichlet s E => with_dirichlet_boundary self s E σ
  | SetLinkExponents s => with_link_exponents self s σ
  | AssignFixedSite i v =>
      b ← find σ.(builders) self;
      ints ← ndarray_setitem σ.(int_arrays) b.(fixed_sites) i v;
      Ok (self, Store σ.(meshes) ints σ.(float_arrays) σ.(builders))
  | AssignLinkExponent i v =>
      b ← find σ.(builders) self;
      floats ← ndarray_setitem σ.(float_arrays) b.(link_exponents) i v;
      Ok (self, Store σ.(meshes) σ.(int_arrays) floats σ.(builders))
  end.

Fixpoint mutate_all (self : loc) (μs : list mutation) (σ : store) : result store :=
  match μs with
  | [] => Ok σ
  | μ :: μs' => '(_, σ') ← mutate self μ σ; mutate_all self μs' σ'
  end.

(** A mutation of the original does not hand the clone's own arrays over
    to the original. *)
Definition avoids (bc : MatrixBuilder) (μ : mutation) : Prop :=
  match μ with
  | SetDirichlet (NdArrayRef r) _ => bc.(fixed_sites) ≠ Some r
  | SetLinkExponents (NdArrayRef r) => bc.(link_exponents) ≠ Some r
  | _ => True
  end.

(** The original [self] and the builder [c] share no array. *)
Definition isolated (σ : store) (self c : loc) (bc : MatrixBuilder) : Prop :=
  c ≠ self
  ∧ σ.(builders) !! c = Some bc
  ∧ (∀ b, σ.(builders) !! self = Some b →
          (∀ l, bc.(fixed_sites) = Some l → b.(fixed_sites) ≠ Some l)
          ∧ (∀ l, bc.(link_exponents) = Some l → b.(link_exponents) ≠ Some l))
  ∧ (∀ l, bc.(fixed_sites) = Some l → is_Some (σ.(int_arrays) !! l))
  ∧ (∀ l, bc.(link_exponents) = Some l → is_Some (σ.(float_arrays) !! l)).

(** Two stores hold the same data behind the attributes of [bc]. *)
Definition same_view (bc : MatrixBuilder) (σ σ' : store) : Prop :=
  σ'.(meshes) = σ.(meshes)
  ∧ (∀ l, bc.(fixed_sites) = Some l → σ'.(int_arrays) !! l = σ.(int_arrays) !! l)
  ∧ (∀ l, bc.(link_exponents) = Some l →
          σ'.(float_arrays) !! l = σ.(float_arrays) !! l).

(** ** Well-formed inputs *)

(** [i] is the index of a site of the mesh. *)
Definition site_ok (mesh : Mesh) (i : Z) : Prop :=
  (0 ≤ i < Z.of_nat (length mesh.(x)))%Z.

(** A mesh as the mesh layer hands it over (spec, section 3): [N] sites with
    a positive dual area each, [M] edges between existing sites with a
    positive length each, boundary indices that name existing edges. *)
Record wf_mesh (mesh : Mesh) : Prop := {
  wf_areas_len : length mesh.(areas) = length mesh.(x);
  wf_lengths_len :
    length mesh.(edge_mesh).(edge_lengths) = length mesh.(edge_mesh).(edges);
  wf_dual_len :
    length mesh.(edge_mesh).(dual_edge_lengths) = length mesh.(edge_mesh).(edges);
  wf_directions_len :
    length mesh.(edge_mesh).(directions) = length mesh.(edge_mesh).(edges);
  wf_endpoints :
    Forall (λ e, site_ok mesh e.1 ∧ site_ok mesh e.2) mesh.(edge_mesh).(edges);
  wf_boundary :
    Forall (λ k, (0 ≤ k < Z.of_nat (length mesh.(edge_mesh).(edges)))%Z)
           mesh.(edge_mesh).(boundary_edge_indices);
  wf_areas_pos : Forall (λ a, (0 < a)%R) mesh.(areas);
  wf_lengths_pos : Forall (λ l, (0 < l)%R) mesh.(edge_mesh).(edge_lengths)
}.

(** Link exponents fit a mesh when absent or one two-component row per edge. *)
Definition wf_link_exponents (mesh : Mesh) (le : pyarg (list (R * R))) : Prop :=
  match le with
  | PyNone => True
  | PyArray a => length a = length mesh.(edge_mesh).(edges)
  | PyObject0 => False
  end.

(** Fixed sites fit a mesh when absent or an array of existing sites. *)
Definition wf_fixed_sites (mesh : Mesh) (fs : pyarg (list Z)) : Prop :=
  match fs with
  | PyNone => True
  | PyArray a => Forall (site_ok mesh) a
  | PyObject0 => False
  end.

(** An externally supplied mask has one flag per assembled triplet. *)
Definition wf_free_rows (mesh : Mesh) (free_rows : option (list bool)) : Prop :=
  match free_rows with
  | None => True
  | Some mask => length mask = 4 * length mesh.(edge_mesh).(edges)
  end.

(** Reading position [k] of an array whose length is known. *)
Definition item {A} (d : A) (l : list A) (k : nat) : A := nth k l d.
Definition itemZ {A} (d : A) (l : list A) (i : Z) : A := nth (Z.to_nat i) l d.

(** ** Quantities named in the statements

    The definitions of this section are not part of the program.  They name
    what the statements talk about (the weight of an edge, the triplets an
    edge contributes, one term of a sum) through plain positional reads of
    the mesh arrays; the lemmas of the second part relate them to what the
    embedded code computes on well-formed inputs. *)

(** The contribution of edge [e] to the divergence of [v] at site [s]:
    [v e · dual e / area s], positive at endpoint 0, negative at endpoint 1. *)
Definition divergence_term (m : Mesh) (v : list C) (s : Z) (e : nat) : C :=
  let ends := item (0, 0)%Z m.(edge_mesh).(edges) e in
  let q := Cmult (item C0 v e)
             (RtoC (item 0%R m.(edge_mesh).(dual_edge_lengths) e
                    / itemZ 0%R m.(areas) s)) in
  Cplus (if decide (ends.1 = s) then q else C0)
        (if decide (ends.2 = s) then Copp q else C0).

(** The link weight of edge [e]: [exp(−i · (exponent e · direction e))] when
    link exponents are given, 1 otherwise. *)
Definition link_weight (m : Mesh) (le : pyarg (list (R * R))) (e : nat) : C :=
  match le with
  | PyArray a =>
      phase (dot2 (item (0, 0)%R a e) (item (0, 0)%R m.(edge_mesh).(directions) e))
  | _ => C1
  end.

(** [dual_edge_lengths / edge_lengths] at edge [k]. *)
Definition edge_weight (m : Mesh) (k : nat) : R :=
  (item 0 m.(edge_mesh).(dual_edge_lengths) k
   / item 0 m.(edge_mesh).(edge_lengths) k)%R.

Definition endpoint0 (m : Mesh) (k : nat) : Z := (item (0, 0)%Z m.(edge_mesh).(edges) k).1.
Definition endpoint1 (m : Mesh) (k : nat) : Z := (item (0, 0)%Z m.(edge_mesh).(edges) k).2.
Definition area (m : Mesh) (i : Z) : R := itemZ 0%R m.(areas) i.

(** The four triplets edge [k] contributes to the Laplacian: the
    off-diagonal entry in the row of endpoint 0, its reverse in the row of
    endpoint 1 (conjugate link weight), and one diagonal term per endpoint. *)
Definition lap_forward (m : Mesh) (le : pyarg (list (R * R))) (k : nat) : Z * Z * C :=
  (endpoint0 m k, endpoint1 m k,
   Cdiv (Cmult (RtoC (edge_weight m k)) (link_weight m le k))
        (RtoC (area m (endpoint0 m k)))).

Definition lap_backward (m : Mesh) (le : pyarg (list (R * R))) (k : nat) : Z * Z * C :=
  (endpoint1 m k, endpoint0 m k,
   Cdiv (Cmult (RtoC (edge_weight m k)) (Cconj (link_weight m le k)))
        (RtoC (area m (endpoint1 m k)))).

Definition lap_diag0 (m : Mesh) (k : nat) : Z * Z * C :=
  (endpoint0 m k, endpoint0 m k,
   RtoC (- edge_weight m k / area m (endpoint0 m k))).

Definition lap_diag1 (m : Mesh) (k : nat) : Z * Z * C :=
  (endpoint1 m k, endpoint1 m k,
   RtoC (- edge_weight m k / area m (endpoint1 m k))).

Definition edge_ids (m : Mesh) : list nat := seq 0 (length m.(edge_mesh).(edges)).

(** All triplets of the general assembly, in the order of the four
    concatenated blocks, before any row is masked out. *)
Definition laplacian_general (m : Mesh) (le : pyarg (list (R * R))) : list (Z * Z * C) :=
  (lap_forward m le <$> edge_ids m) ++ (lap_backward m le <$> edge_ids m)
  ++ (lap_diag0 m <$> edge_ids m) ++ (lap_diag1 m <$> edge_ids m).

(** The [rows] array of [build_laplacian] before masking. *)
Definition laplacian_rows (m : Mesh) : list Z :=
  let edges0 := m.(edge_mesh).(edges).*1 in
  let edges1 := m.(edge_mesh).(edges).*2 in
  edges0 ++ edges1 ++ edges0 ++ edges1.

(** The diagonal triplets appended for the fixed sites. *)
Definition fixed_diagonal (fs : list Z) (E : R) : list (Z * Z * C) :=
  (λ f, (f, f, RtoC E)) <$> fs.

Definition fixed_list (fs : pyarg (list Z)) : list Z :=
  match fs with
  | PyArray a => a
  | _ => []
  end.

(** The mask [build_laplacian] works with: the one supplied, or the one it
    computes from the fixed sites. *)
Definition free_mask (m : Mesh) (fs : pyarg (list Z)) (free_rows : option (list bool))
  : list bool :=
  match free_rows with
  | Some mask => mask
  | None => np_isin_invert (laplacian_rows m) (fixed_list fs)
  end.

(** The two triplets the [k]-th boundary edge contributes to the Neumann
    boundary operator, one per endpoint. *)
Definition boundary_ids (m : Mesh) : list nat :=
  seq 0 (length m.(edge_mesh).(boundary_edge_indices)).

Definition boundary_edge (m : Mesh) (k : nat) : Z * Z :=
  itemZ (0, 0)%Z m.(edge_mesh).(edges)
    (item 0%Z m.(edge_mesh).(boundary_edge_indices) k).

Definition boundary_length (m : Mesh) (k : nat) : R :=
  itemZ 0%R m.(edge_mesh).(edge_lengths)
    (item 0%Z m.(edge_mesh).(boundary_edge_indices) k).

Definition neumann_term0 (m : Mesh) (k : nat) : Z * Z * C :=
  ((boundary_edge m k).1, Z.of_nat k,
   RtoC (boundary_length m k / (2 * area m (boundary_edge m k).1))).

Definition neumann_term1 (m : Mesh) (k : nat) : Z * Z * C :=
  ((boundary_edge m k).2, Z.of_nat k,
   RtoC (boundary_length m k / (2 * area m (boundary_edge m k).2))).

Definition neumann_general (m : Mesh) : list (Z * Z * C) :=
  (neumann_term0 m <$> boundary_ids m) ++ (neumann_term1 m <$> boundary_ids m).

(** The primal and the dual length of edge [k]. *)
Definition edge_length (m : Mesh) (k : nat) : R :=
  item 0%R m.(edge_mesh).(edge_lengths) k.

Definition dual_length (m : Mesh) (k : nat) : R :=
  item 0%R m.(edge_mesh).(dual_edge_lengths) k.

(** A negative index counts from the end: what the row assignment of the
    Neumann builder makes of a fixed site in [-n, n). *)
Definition wrap_index (n : nat) (i : Z) : Z :=
  if decide (i < 0)%Z then (i + Z.of_nat n)%Z else i.

(** ** Builder states and concrete inputs *)

(** A builder over the well-formed mesh [m] whose fixed sites and link
    exponents are absent or arrays that fit [m]. *)
Definition wf_builder (σ : store) (b : MatrixBuilder) (m : Mesh) : Prop :=
  σ.(meshes) !! b.(mesh) = Some m
  ∧ wf_mesh m
  ∧ (∃ le, load σ.(float_arrays) b.(link_exponents) = Ok le
           ∧ wf_link_exponents m le)
  ∧ (∃ fs, load σ.(int_arrays) b.(fixed_sites) = Ok fs
           ∧ wf_fixed_sites m fs).

(** Three sites on a line, joined by two unit edges. *)
Definition strip_mesh : Mesh := {|
  x := [0; 1; 2]%R;
  areas := [/ 2; 1; / 2]%R;
  edge_mesh := {|
    edges := [(0, 1); (1, 2)]%Z;
    edge_lengths := [1; 1]%R;
    dual_edge_lengths := [1; 1]%R;
    directions := [(1, 0); (1, 0)]%R;
    boundary_edge_indices := [0; 1]%Z
  |}
|}.

(** Two sites of dual areas 1 and 2, joined by one edge. *)
Definition two_site_mesh : Mesh := {|
  x := [0; 1]%R;
  areas := [1; 2]%R;
  edge_mesh := {|
    edges := [(0, 1)]%Z;
    edge_lengths := [1]%R;
    dual_edge_lengths := [1]%R;
    directions := [(1, 0)]%R;
    boundary_edge_indices := [0]%Z
  |}
|}.

(** The store before and after [MatrixBuilder(strip_mesh)]. *)
Definition strip_store : store := Store {[ 1%positive := strip_mesh ]} ∅ ∅ ∅.

Definition default_builder : MatrixBuilder :=
  {| mesh := 1%positive; fixed_sites := None; fixed_sites_eigenvalue := 1%R;
     link_exponents := None |}.

Definition builder_store : store :=
  Store {[ 1%positive := strip_mesh ]} ∅ ∅ {[ 1%positive := default_builder ]}.

(** The store after [with_dirichlet_boundary([7])] on that builder: site 7
    does not exist on the three-site mesh. *)
Definition out_of_range_builder : MatrixBuilder :=
  {| mesh := 1%positive; fixed_sites := Some 1%positive;
     fixed_sites_eigenvalue := 1%R; link_exponents := None |}.

Definition out_of_range_store : store :=
  Store {[ 1%positive := strip_mesh ]} {[ 1%positive := NdArray [7%Z] ]} ∅
        {[ 1%positive := out_of_range_builder ]}.

(** A builder with site 0 fixed at eigenvalue 1 and link exponents set. *)
Definition configured_builder : MatrixBuilder :=
  {| mesh := 1%positive; fixed_sites := Some 1%positive;
     fixed_sites_eigenvalue := 1%R; link_exponents := Some 1%positive |}.

Definition configured_store : store :=
  Store {[ 1%positive := strip_mesh ]} {[ 1%positive := NdArray [0%Z] ]}
        {[ 1%positive := NdArray [(0, 0); (1, 0)]%R ]}
        {[ 1%positive := configured_builder ]}.

(** ** The state line of the viewer ([tdgl/visualization/io.py]) *)

(** A value of the state dictionary: a [np.float64], or any other object,
    kept as the text [str] gives for it. *)
Inductive state_value : Type :=
| Float64 (v : R)
| PyValue (str : string).

Definition newline : string := String (Ascii.ascii_of_nat 10) EmptyString.

(** [s[:-1]] *)
Fixpoint drop_last (s : string) : string :=
  match s with
  | EmptyString => EmptyString
  | String c s' =>
      match s' with
      | EmptyString => EmptyString
      | String _ _ => String c (drop_last s')
      end
  end.

(** [get_state_string], over the data file, the reader [load_state_data] of
    [tdgl/solution/data.py], which returns the state dictionary of a frame
    (here its items in insertion order), and the [.2e] format of a float. *)
Section get_state_string.
Context {h5file : Type}.
Variable load_state_data : h5file → Z → list (string * state_value).
Variable format_2e : R → string.

Definition state_entry (key : string) (value : state_value) : string :=
  match value with
  | Float64 v => key +:+ ": " +:+ format_2e v
  | PyValue str => key +:+ ": " +:+ str
  end.

(** The loop of [get_state_string] over the items of the dictionary, with
    its counter [i] and the text built so far. *)
Fixpoint state_loop (items : list (string * state_value)) (i : nat)
    (state_string : string) : string :=
  match items with
  | [] => state_string
  | (key, value) :: items' =>
      if decide (key = "timestamp") then state_loop items' i state_string
      else
        let state_string := state_string +:+ ", " in
        let state_string :=
          if decide (i mod 3 = 0) then state_string +:+ newline
          else state_string in
        state_loop items' (S i) (state_string +:+ state_entry key value)
  end.

Definition get_state_string (h5 : h5file) (frame max_frame : Z) : string :=
  let state := load_state_data h5 frame in
  let state_string :=
    "Frame " +:+ pretty frame +:+ " of " +:+ pretty max_frame in
  drop_last (state_loop state 1 state_string).
End get_state_string.

(** * Properties *)

(** ** Complex arithmetic *)

Section complex_facts.
Local Open Scope R_scope.

Lemma C_ext z w : Re z = Re w → Im z = Im w → z = w.
Proof. destruct z, w; simpl; intros -> ->; reflexivity. Qed.

Ltac C_eq := apply C_ext; simpl; try ring.

Lemma Cplus_comm z w : Cplus z w = Cplus w z.
Proof. C_eq. Qed.

Lemma Cplus_assoc z w u : Cplus z (Cplus w u) = Cplus (Cplus z w) u.
Proof. C_eq. Qed.

Lemma Cplus_0_l z : Cplus C0 z = z.
Proof. destruct z; C_eq. Qed.

Lemma Cplus_0_r z : Cplus z C0 = z.
Proof. destruct z; C_eq. Qed.

Lemma Cmult_comm z w : Cmult z w = Cmult w z.
Proof. C_eq. Qed.

Lemma Cmult_0_l z : Cmult C0 z = C0.
Proof. C_eq. Qed.

Lemma Cmult_0_r z : Cmult z C0 = C0.
Proof. C_eq. Qed.

Lemma Cmult_1_l z : Cmult C1 z = z.
Proof. destruct z; C_eq. Qed.

Lemma Cmult_plus_distr_l z w u : Cmult z (Cplus w u) = Cplus (Cmult z w) (Cmult z u).
Proof. C_eq. Qed.

Lemma Cconj_plus z w : Cconj (Cplus z w) = Cplus (Cconj z) (Cconj w).
Proof. C_eq. Qed.

Lemma Cconj_mult z w : Cconj (Cmult z w) = Cmult (Cconj z) (Cconj w).
Proof. C_eq. Qed.

Lemma Cconj_RtoC r : Cconj (RtoC r) = RtoC r.
Proof. C_eq. Qed.

Lemma Cconj_invol z : Cconj (Cconj z) = z.
Proof. destruct z; C_eq. Qed.

Lemma RtoC_plus a b : RtoC (a + b) = Cplus (RtoC a) (RtoC b).
Proof. C_eq. Qed.

Lemma RtoC_mult a b : RtoC (a * b) = Cmult (RtoC a) (RtoC b).
Proof. C_eq. Qed.

Lemma RtoC_opp a : RtoC (- a) = Copp (RtoC a).
Proof. C_eq. Qed.

Lemma RtoC_inj a b : RtoC a = RtoC b → a = b.
Proof. intros H. exact (f_equal Re H). Qed.

(** Dividing a complex number by a non-zero real divides both parts. *)
Lemma Cdiv_real z a : a ≠ 0 → Cdiv z (RtoC a) = mkC (Re z / a) (Im z / a).
Proof. intros Ha. apply C_ext; simpl; unfold Cnorm2; simpl; field; lra. Qed.

Lemma RtoC_div a b : b ≠ 0 → RtoC (a / b) = Cdiv (RtoC a) (RtoC b).
Proof. intros Hb. rewrite Cdiv_real by done. apply C_ext; simpl; field; lra. Qed.

Lemma Csum_app l k : Csum (l ++ k) = Cplus (Csum l) (Csum k).
Proof.
  induction l as [|z l IH]; csimpl.
  - by rewrite Cplus_0_l.
  - by rewrite IH, Cplus_assoc.
Qed.

Lemma Csum_zero {A} (l : list A) : Csum ((λ _, C0) <$> l) = C0.
Proof. induction l as [|a l IH]; csimpl; [done|]. by rewrite IH, Cplus_0_l. Qed.

Lemma Csum_ext {A} (f g : A → C) l :
  (∀ a, a ∈ l → f a = g a) → Csum (f <$> l) = Csum (g <$> l).
Proof.
  induction l as [|a l IH]; intros H; csimpl; [done|].
  rewrite H by left. rewrite IH; [done|]. intros b Hb. apply H. by right.
Qed.

Lemma Csum_plus {A} (f g : A → C) l :
  Csum ((λ a, Cplus (f a) (g a)) <$> l) = Cplus (Csum (f <$> l)) (Csum (g <$> l)).
Proof.
  induction l as [|a l IH]; csimpl.
  - by rewrite Cplus_0_l.
  - rewrite IH. C_eq.
Qed.

Lemma Csum_scale {A} c (f : A → C) l :
  Csum ((λ a, Cmult c (f a)) <$> l) = Cmult c (Csum (f <$> l)).
Proof.
  induction l as [|a l IH]; csimpl.
  - by rewrite Cmult_0_r.
  - by rewrite IH, Cmult_plus_distr_l.
Qed.

Lemma Csum_conj {A} (f : A → C) l :
  Csum ((λ a, Cconj (f a)) <$> l) = Cconj (Csum (f <$> l)).
Proof.
  induction l as [|a l IH]; csimpl.
  - C_eq.
  - by rewrite IH, Cconj_plus.
Qed.

(** A sum over [0 .. n) in which one position only is selected. *)
Lemma Csum_select (g : nat → C) (n : nat) (i : Z) :
  Csum ((λ k, if decide (Z.of_nat k = i) then g k else C0) <$> seq 0 n)
  = if decide (0 ≤ i < Z.of_nat n)%Z then g (Z.to_nat i) else C0.
Proof.
  induction n as [|n IH].
  - csimpl. case_decide; [lia|done].
  - rewrite seq_S, fmap_app, Csum_app, IH. csimpl.
    rewrite Cplus_0_r.
    destruct (decide (Z.of_nat n = i)) as [<-|Hne].
    + rewrite Nat2Z.id. rewrite decide_False by lia.
      rewrite decide_True by lia. by rewrite Cplus_0_l.
    + rewrite Cplus_0_r.
      destruct (decide (0 ≤ i < Z.of_nat n)%Z).
      * by rewrite decide_True by lia.
      * by rewrite decide_False by lia.
Qed.

End complex_facts.

(** ** numpy and the assembled triplets *)

Lemma bind_Ok {A B} (a : A) (f : A → result B) : (Ok a ≫= f) = f a.
Proof. reflexivity. Qed.

Lemma bind_eq_Ok {A B} (r : result A) a (f : A → result B) :
  r = Ok a → (r ≫= f) = f a.
Proof. by intros ->. Qed.

Lemma broadcast_same {A B D} (f : A → B → D) a b :
  length a = length b → broadcast f a b = Ok (zip_with f a b).
Proof. intros H. unfold broadcast. by rewrite decide_True. Qed.

Lemma zip_with_tab {A B D T} (f : A → B → D) (u : T → A) (v : T → B) s :
  zip_with f (u <$> s) (v <$> s) = (λ k, f (u k) (v k)) <$> s.
Proof. induction s as [|k s IH]; csimpl; [done|]. by rewrite IH. Qed.

Lemma broadcast_tab {A B D T} (f : A → B → D) (u : T → A) (v : T → B) s :
  broadcast f (u <$> s) (v <$> s) = Ok ((λ k, f (u k) (v k)) <$> s).
Proof.
  rewrite broadcast_same by (by rewrite !length_fmap).
  by rewrite zip_with_tab.
Qed.

Lemma tabulate {A} (d : A) l : l = item d l <$> seq 0 (length l).
Proof.
  apply list_eq. intros i. rewrite list_lookup_fmap.
  destruct (decide (i < length l)) as [Hi|Hi].
  - rewrite lookup_seq_lt by done. csimpl. unfold item.
    rewrite nth_lookup. destruct (lookup_lt_is_Some_2 l i Hi) as [v Hv].
    by rewrite Hv.
  - rewrite lookup_seq_ge by lia. by rewrite lookup_ge_None_2 by lia.
Qed.

Lemma tabulate_n {A} (d : A) l n : length l = n → l = item d l <$> seq 0 n.
Proof. intros <-. apply tabulate. Qed.

Lemma fmap_item {A B} (g : A → B) (d : A) l n :
  length l = n → g <$> l = (λ k, g (item d l k)) <$> seq 0 n.
Proof.
  intros H. rewrite (list_fmap_compose (item d l) g).
  by rewrite <- (tabulate_n d l n H).
Qed.

Lemma zip_with_item {A B D} (f : A → B → D) da db a b n :
  length a = n → length b = n →
  zip_with f a b = (λ k, f (item da a k) (item db b k)) <$> seq 0 n.
Proof.
  intros Ha Hb. rewrite <- (zip_with_tab f (item da a) (item db b)).
  by rewrite <- (tabulate_n da a n Ha), <- (tabulate_n db b n Hb).
Qed.

Lemma broadcast_item {A B D} (f : A → B → D) da db a b n :
  length a = n → length b = n →
  broadcast f a b = Ok ((λ k, f (item da a k) (item db b k)) <$> seq 0 n).
Proof.
  intros Ha Hb. rewrite broadcast_same by congruence.
  by rewrite (zip_with_item f da db a b n).
Qed.

Lemma getitem_ok {A} (d : A) a i :
  (0 ≤ i < Z.of_nat (length a))%Z → getitem a i = Ok (itemZ d a i).
Proof.
  intros Hi. unfold getitem, itemZ. cbv zeta.
  rewrite (decide_False (P := (i < 0)%Z)) by lia.
  rewrite decide_True by lia.
  rewrite nth_lookup.
  destruct (lookup_lt_is_Some_2 a (Z.to_nat i)) as [v Hv]; [lia|].
  by rewrite Hv.
Qed.

Lemma np_take_tab {A T} (d : A) a (u : T → Z) s :
  (∀ k, k ∈ s → (0 ≤ u k < Z.of_nat (length a))%Z) →
  np_take a (u <$> s) = Ok ((λ k, itemZ d a (u k)) <$> s).
Proof.
  unfold np_take. induction s as [|k s IH]; intros H; [done|].
  rewrite fmap_cons.
  change (mapM (getitem a) (u k :: (u <$> s)))
    with (getitem a (u k) ≫= λ y, mapM (getitem a) (u <$> s) ≫= λ r, Ok (y :: r)).
  rewrite (getitem_ok d) by (apply H; left).
  rewrite IH; [done|]. intros j Hj. apply H. by right.
Qed.

Lemma forallb_index_ok n l :
  Forall (λ i, (0 ≤ i < Z.of_nat n)%Z) l → forallb (index_ok n) l = true.
Proof.
  induction 1 as [|i l Hi _ IH]; [done|]. simpl. rewrite IH.
  unfold index_ok. by rewrite bool_decide_eq_true_2.
Qed.

Lemma coo_matrix_ok values rows cols shp :
  length rows = length cols → length rows = np_len values →
  Forall (λ i, (0 ≤ i < Z.of_nat shp.1)%Z) rows →
  Forall (λ i, (0 ≤ i < Z.of_nat shp.2)%Z) cols →
  coo_matrix values rows cols shp = Ok (SpMatrix shp rows cols values).
Proof.
  intros H1 H2 Hr Hc. unfold coo_matrix.
  rewrite decide_True by done.
  by rewrite !forallb_index_ok.
Qed.

Lemma zip3_app {A B D} (r1 r2 : list A) (c1 c2 : list B) (d1 d2 : list D) :
  length r1 = length c1 → length r1 = length d1 →
  zip (zip (r1 ++ r2) (c1 ++ c2)) (d1 ++ d2)
  = zip (zip r1 c1) d1 ++ zip (zip r2 c2) d2.
Proof.
  intros H1 H2.
  rewrite (zip_with_app pair r1 r2 c1 c2) by done.
  rewrite zip_with_app; [done|]. rewrite length_zip_with. lia.
Qed.

Lemma zip3_tab {A B D T} (r : T → A) (c : T → B) (d : T → D) s :
  zip (zip (r <$> s) (c <$> s)) (d <$> s) = (λ k, (r k, c k, d k)) <$> s.
Proof. by rewrite !zip_with_tab. Qed.

Lemma vec_get_of_nat v k : vec_get v (Z.of_nat k) = item C0 v k.
Proof.
  unfold vec_get, item. rewrite decide_True by lia.
  by rewrite Nat2Z.id, nth_lookup.
Qed.

Lemma wf_endpoint_item m k :
  wf_mesh m → k < length m.(edge_mesh).(edges) →
  site_ok m (item (0, 0)%Z m.(edge_mesh).(edges) k).1 ∧
  site_ok m (item (0, 0)%Z m.(edge_mesh).(edges) k).2.
Proof.
  intros Hwf Hk. pose proof (wf_endpoints m Hwf) as HF.
  rewrite Forall_lookup in HF.
  destruct (lookup_lt_is_Some_2 _ _ Hk) as [e He].
  unfold item. rewrite nth_lookup, He. by apply (HF k).
Qed.

Lemma build_divergence_ok m :
  wf_mesh m →
  let s := seq 0 (length m.(edge_mesh).(edges)) in
  let e := item (0, 0)%Z m.(edge_mesh).(edges) in
  let w := item 0%R m.(edge_mesh).(dual_edge_lengths) in
  let a := itemZ 0%R m.(areas) in
  build_divergence m
  = Ok (SpMatrix (length m.(x), length m.(edge_mesh).(edges))
          (((λ k, (e k).1) <$> s) ++ ((λ k, (e k).2) <$> s))
          ((Z.of_nat <$> s) ++ (Z.of_nat <$> s))
          (F64 (((λ k, w k / a (e k).1)%R <$> s)
                ++ ((λ k, - w k / a (e k).2)%R <$> s)))).
Proof.
  intros Hwf s e w a. unfold build_divergence.
  pose proof (tabulate (0, 0)%Z m.(edge_mesh).(edges)) as He.
  pose proof (tabulate 0%R m.(edge_mesh).(dual_edge_lengths)) as Hw.
  rewrite (wf_dual_len m Hwf) in Hw.
  fold e s in He. fold w s in Hw.
  assert (Hs : ∀ k, k ∈ s → k < length m.(edge_mesh).(edges)).
  { intros k Hk. apply elem_of_seq in Hk. lia. }
  assert (H1 : (edges (edge_mesh m)).*1 = (λ k, (e k).1) <$> s).
  { rewrite He at 1. by rewrite <- list_fmap_compose. }
  assert (H2 : (edges (edge_mesh m)).*2 = (λ k, (e k).2) <$> s).
  { rewrite He at 1. by rewrite <- list_fmap_compose. }
  assert (Hr1 : ∀ k, k ∈ s → (0 ≤ (e k).1 < Z.of_nat (length (areas m)))%Z).
  { intros k Hk. rewrite (wf_areas_len m Hwf).
    apply (wf_endpoint_item m k Hwf), Hs, Hk. }
  assert (Hr2 : ∀ k, k ∈ s → (0 ≤ (e k).2 < Z.of_nat (length (areas m)))%Z).
  { intros k Hk. rewrite (wf_areas_len m Hwf).
    apply (wf_endpoint_item m k Hwf), Hs, Hk. }
  rewrite H1, H2, Hw.
  rewrite (bind_eq_Ok _ _ _ (np_take_tab 0%R _ _ _ Hr1)).
  rewrite (bind_eq_Ok _ _ _ (broadcast_tab _ _ _ _)).
  rewrite (bind_eq_Ok _ _ _ (np_take_tab 0%R _ _ _ Hr2)).
  rewrite <- list_fmap_compose.
  rewrite (bind_eq_Ok _ _ _ (broadcast_tab _ _ _ _)).
  unfold np_arange. fold s.
  rewrite coo_matrix_ok; [done|..].
  - by rewrite !length_app, !length_fmap.
  - simpl. by rewrite !length_app, !length_fmap.
  - apply Forall_app; split; apply Forall_fmap, Forall_forall; intros k Hk;
      apply (wf_endpoint_item m k Hwf), Hs, Hk.
  - apply Forall_app; split; apply Forall_fmap, Forall_forall; intros k Hk;
      simpl; apply Hs in Hk; lia.
Qed.

Lemma matvec_app m v i t1 t2 :
  triplets m = t1 ++ t2 →
  matvec m v i = Cplus (Csum (matvec_term v i <$> t1)) (Csum (matvec_term v i <$> t2)).
Proof. intros H. unfold matvec. by rewrite H, fmap_app, Csum_app. Qed.

Lemma entry_app m i j t1 t2 :
  triplets m = t1 ++ t2 →
  entry m i j = Cplus (Csum (entry_term i j <$> t1)) (Csum (entry_term i j <$> t2)).
Proof. intros H. unfold entry. by rewrite H, fmap_app, Csum_app. Qed.

Lemma divergence_triplets m :
  wf_mesh m →
  let s := seq 0 (length m.(edge_mesh).(edges)) in
  let e := item (0, 0)%Z m.(edge_mesh).(edges) in
  let w := item 0%R m.(edge_mesh).(dual_edge_lengths) in
  let a := itemZ 0%R m.(areas) in
  ∃ D, build_divergence m = Ok D
       ∧ shape D = (length m.(x), length m.(edge_mesh).(edges))
       ∧ triplets D
         = ((λ k, ((e k).1, Z.of_nat k, RtoC (w k / a (e k).1))) <$> s)
           ++ ((λ k, ((e k).2, Z.of_nat k, RtoC (- w k / a (e k).2))) <$> s).
Proof.
  intros Hwf s e w a. eexists. split; [apply (build_divergence_ok m Hwf)|].
  split; [done|]. unfold triplets. simpl.
  rewrite fmap_app, zip3_app by (by rewrite !length_fmap).
  by rewrite <- !list_fmap_compose, !zip3_tab.
Qed.

(** C6: the divergence is an N×M matrix; applied to an edge field [v] it
    gives at site [s] the sum over the edges of [v e · dual e / area s],
    counted positively when [s] is endpoint 0 of [e] and negatively when it
    is endpoint 1, with no link weight; and the DIVERGENCE dispatch of
    [build] returns [build_divergence] of the mesh whatever the link
    exponents, fixed sites, eigenvalue and mask of the builder are. *)
Theorem divergence_operator (m : Mesh) :
  wf_mesh m →
  (∃ D, build_divergence m = Ok D
        ∧ shape D = (length m.(x), length m.(edge_mesh).(edges))
        ∧ ∀ (v : list C) (s : Z),
            length v = length m.(edge_mesh).(edges) →
            matvec D v s
            = Csum (divergence_term m v s
                      <$> seq 0 (length m.(edge_mesh).(edges))))
  ∧ (∀ σ self b free_rows,
        σ.(builders) !! self = Some b →
        σ.(meshes) !! b.(mesh) = Some m →
        build self (Member DIVERGENCE) free_rows σ
        = RetMatrix <$> build_divergence m).
Proof.
  intros Hwf. split.
  - destruct (divergence_triplets m Hwf) as (D & HD & Hshape & Ht).
    exists D. split; [done|]. split; [done|].
    intros v s _.
    rewrite (matvec_app _ _ _ _ _ Ht), <- !list_fmap_compose, <- Csum_plus.
    apply Csum_ext. intros k Hk. apply elem_of_seq in Hk.
    unfold divergence_term, matvec_term, compose. cbv zeta. simpl.
    rewrite vec_get_of_nat.
    f_equal.
    + case_decide as Hd; [|done]. rewrite Hd. apply Cmult_comm.
    + case_decide as Hd; [|done]. rewrite Hd.
      apply C_ext; simpl; unfold Rdiv; ring.
  - intros σ self b free_rows Hb Hm. unfold build, find.
    rewrite Hb. simpl. by rewrite Hm.
Qed.

Lemma replicate_tab {A T} (c : A) (s : list T) :
  replicate (length s) c = (λ _, c) <$> s.
Proof. induction s as [|k s IH]; csimpl; [done|]. by rewrite IH. Qed.

Lemma link_weights_ok m le :
  wf_mesh m → wf_link_exponents m le →
  let s := seq 0 (length m.(edge_mesh).(edges)) in
  ∃ lv, link_weights m.(edge_mesh) le (length s) = Ok lv
        ∧ is_real lv = is_None le
        ∧ as_complex lv = link_weight m le <$> s
        ∧ as_complex (np_conjugate lv) = (λ k, Cconj (link_weight m le k)) <$> s.
Proof.
  intros Hwf Hle s. destruct le as [|a|]; [| |done].
  - eexists. split; [done|]. split; [done|]. simpl.
    rewrite replicate_tab, <- !list_fmap_compose. split; [done|].
    apply list_fmap_ext. intros _ k _. apply C_ext; simpl; lra.
  - simpl in Hle. simpl.
    rewrite (bind_eq_Ok _ _ _
               (broadcast_item dot2 (0, 0)%R (0, 0)%R _ _ _ Hle
                  (wf_directions_len m Hwf))).
    eexists. split; [done|]. split; [done|]. simpl.
    by rewrite <- !list_fmap_compose.
Qed.

Lemma np_len_as_complex a : np_len a = length (as_complex a).
Proof. destruct a; simpl; by rewrite ?length_fmap. Qed.

Lemma as_complex_concatenate2 a b :
  as_complex (np_concatenate2 a b) = as_complex a ++ as_complex b.
Proof. destruct a, b; simpl; by rewrite ?fmap_app. Qed.

Lemma is_real_concatenate2 a b :
  is_real (np_concatenate2 a b) = is_real a && is_real b.
Proof. by destruct a, b. Qed.

Lemma fmap_zip_with_hom {A B} (h : A → B) (f : A → A → A) (g : B → B → B) xs ys :
  Forall (λ y, ∀ x, h (f x y) = g (h x) (h y)) ys →
  h <$> zip_with f xs ys = zip_with g (h <$> xs) (h <$> ys).
Proof.
  intros H. revert xs. induction H as [|y ys Hy _ IH]; intros [|x xs]; csimpl;
    [done..|]. by rewrite Hy, IH.
Qed.

Lemma np_binop_tab fR fC a b (u v : nat → C) (s : list nat) :
  as_complex a = u <$> s → as_complex b = v <$> s →
  (∀ ys, b = F64 ys →
         Forall (λ y, ∀ x, RtoC (fR x y) = fC (RtoC x) (RtoC y)) ys) →
  ∃ r, np_binop fR fC a b = Ok r
       ∧ as_complex r = (λ k, fC (u k) (v k)) <$> s
       ∧ is_real r = is_real a && is_real b.
Proof.
  intros Ha Hb Hhom.
  assert (Hlen : length (as_complex a) = length (as_complex b)).
  { by rewrite Ha, Hb, !length_fmap. }
  destruct a as [xs|xs], b as [ys|ys]; simpl in *.
  - rewrite !length_fmap in Hlen. rewrite (broadcast_same _ _ _ Hlen).
    eexists. split; [done|]. split; [|done]. simpl.
    rewrite (fmap_zip_with_hom RtoC fR fC) by (by apply Hhom).
    by rewrite Ha, Hb, zip_with_tab.
  - rewrite (broadcast_same _ _ _ Hlen).
    eexists. split; [done|]. split; [|done]. simpl.
    by rewrite Ha, Hb, zip_with_tab.
  - rewrite (broadcast_same _ _ _ Hlen).
    eexists. split; [done|]. split; [|done]. simpl.
    by rewrite Ha, Hb, zip_with_tab.
  - rewrite (broadcast_same _ _ _ Hlen).
    eexists. split; [done|]. split; [|done]. simpl.
    by rewrite Ha, Hb, zip_with_tab.
Qed.

Lemma np_multiply_tab a b (u v : nat → C) (s : list nat) :
  as_complex a = u <$> s → as_complex b = v <$> s →
  ∃ r, np_multiply a b = Ok r
       ∧ as_complex r = (λ k, Cmult (u k) (v k)) <$> s
       ∧ is_real r = is_real a && is_real b.
Proof.
  intros Ha Hb. apply np_binop_tab; [done..|].
  intros ys _. apply Forall_forall. intros y _ x. apply RtoC_mult.
Qed.

Lemma np_divide_tab a (d : nat → R) (u : nat → C) (s : list nat) :
  as_complex a = u <$> s → (∀ k, k ∈ s → d k ≠ 0%R) →
  ∃ r, np_divide a (F64 (d <$> s)) = Ok r
       ∧ as_complex r = (λ k, Cdiv (u k) (RtoC (d k))) <$> s
       ∧ is_real r = is_real a.
Proof.
  intros Ha Hd.
  destruct (np_binop_tab Rdiv Cdiv a (F64 (d <$> s)) u (λ k, RtoC (d k)) s)
    as (r & Hr & Hc & Hreal); [done|..].
  - simpl. by rewrite <- list_fmap_compose.
  - intros ys [= <-]. apply Forall_fmap, Forall_forall. intros k Hk x.
    simpl. by apply RtoC_div, Hd.
  - exists r. split; [done|]. split; [done|].
    rewrite Hreal. simpl. by rewrite andb_true_r.
Qed.

Lemma build_gradient_ok m le :
  wf_mesh m → wf_link_exponents m le →
  let s := seq 0 (length m.(edge_mesh).(edges)) in
  let e := item (0, 0)%Z m.(edge_mesh).(edges) in
  let len := item 0%R m.(edge_mesh).(edge_lengths) in
  ∃ G, build_gradient m le = Ok G
       ∧ shape G = (length m.(edge_mesh).(edges), length m.(x))
       ∧ is_real (data G) = is_None le
       ∧ triplets G
         = ((λ k, (Z.of_nat k, (e k).2,
                   Cmult (link_weight m le k) (RtoC (1 / len k)))) <$> s)
           ++ ((λ k, (Z.of_nat k, (e k).1, RtoC (- (1 / len k)))) <$> s).
Proof.
  intros Hwf Hle s e len. unfold build_gradient.
  pose proof (wf_lengths_len m Hwf) as Hlen.
  rewrite (fmap_item (Rdiv 1) 0%R _ _ Hlen). fold s len.
  rewrite length_fmap.
  destruct (link_weights_ok m le Hwf Hle) as (lv & Hlv & Hreal & Hc & _).
  fold s in Hlv, Hc.
  rewrite (bind_eq_Ok _ _ _ Hlv).
  destruct (np_multiply_tab lv (F64 ((λ k, 1 / len k)%R <$> s))
              (link_weight m le) (λ k, RtoC (1 / len k)) s)
    as (v0 & Hv0 & Hv0c & Hv0r); [done|by simpl; rewrite <- list_fmap_compose|].
  rewrite (bind_eq_Ok _ _ _ Hv0).
  rewrite (fmap_item fst (0, 0)%Z _ _ eq_refl).
  rewrite (fmap_item snd (0, 0)%Z _ _ eq_refl). fold e s.
  unfold np_arange. fold s.
  assert (Hs : ∀ k, k ∈ s → k < length m.(edge_mesh).(edges)).
  { intros k Hk. apply elem_of_seq in Hk. lia. }
  rewrite coo_matrix_ok.
  - eexists. split; [done|]. split; [done|]. split.
    + simpl. rewrite is_real_concatenate2, Hv0r, Hreal. simpl.
      by rewrite !andb_true_r.
    + unfold triplets. simpl.
      rewrite !as_complex_concatenate2, Hv0c. simpl. rewrite app_nil_r.
      rewrite zip3_app by (by rewrite !length_fmap).
      by rewrite <- !list_fmap_compose, !zip3_tab.
  - by rewrite !length_app, !length_fmap.
  - rewrite np_len_as_complex. simpl.
    rewrite !as_complex_concatenate2, Hv0c. simpl. rewrite app_nil_r.
    by rewrite !length_app, !length_fmap.
  - apply Forall_app; split; apply Forall_fmap, Forall_forall; intros k Hk;
      simpl; apply Hs in Hk; lia.
  - apply Forall_app; split; apply Forall_fmap, Forall_forall; intros k Hk;
      apply (wf_endpoint_item m k Hwf), Hs, Hk.
Qed.

Lemma item_lookup {A} (d : A) l k v : l !! k = Some v → item d l k = v.
Proof. intros H. unfold item. by apply nth_lookup_Some. Qed.

(** C5: the gradient is an M×N matrix; applied to a site field [φ] it gives
    on edge [e = (end0, end1)] the value
    [(φ end1 · linkWeight e − φ end0) / length e], where [linkWeight e] is
    [exp(−i · (exponent e · direction e))] when link exponents are given
    and 1 otherwise; the weight multiplies the endpoint-1 term only. *)
Theorem gradient_operator (m : Mesh) (le : pyarg (list (R * R))) :
  wf_mesh m → wf_link_exponents m le →
  ∃ G, build_gradient m le = Ok G
       ∧ shape G = (length m.(edge_mesh).(edges), length m.(x))
       ∧ ∀ (φ : list C) (e : nat) (end0 end1 : Z) (len : R),
           length φ = length m.(x) →
           m.(edge_mesh).(edges) !! e = Some (end0, end1) →
           m.(edge_mesh).(edge_lengths) !! e = Some len →
           matvec G φ (Z.of_nat e)
           = Cdiv (Cminus (Cmult (vec_get φ end1) (link_weight m le e))
                          (vec_get φ end0))
                  (RtoC len).
Proof.
  intros Hwf Hle.
  destruct (build_gradient_ok m le Hwf Hle) as (G & HG & Hshape & _ & Ht).
  exists G. split; [done|]. split; [done|].
  intros φ e end0 end1 len _ He Hlen.
  rewrite (matvec_app _ _ _ _ _ Ht), <- !list_fmap_compose.
  unfold compose, matvec_term. simpl.
  rewrite !Csum_select.
  pose proof (lookup_lt_Some _ _ _ He) as Hlt.
  rewrite !decide_True by lia. rewrite Nat2Z.id.
  rewrite (item_lookup _ _ _ _ He), (item_lookup _ _ _ _ Hlen). simpl.
  assert (Hpos : (0 < len)%R).
  { pose proof (wf_lengths_pos m Hwf) as HF. rewrite Forall_lookup in HF.
    by apply (HF e). }
  rewrite Cdiv_real by lra.
  apply C_ext; simpl; field; lra.
Qed.

Lemma compress_zip {A B} mask (a : list A) (b : list B) :
  compress mask (zip a b) = zip (compress mask a) (compress mask b).
Proof.
  revert a b. induction mask as [|[] mask IH]; intros [|x a] [|y b]; simpl;
    rewrite ?IH; try done.
  by destruct (compress mask a).
Qed.

Lemma Forall_compress {A} (P : A → Prop) mask l :
  Forall P l → Forall P (compress mask l).
Proof.
  intros H. revert mask. induction H as [|x l Hx _ IH]; intros [|[] mask]; simpl;
    auto.
Qed.

Lemma length_compress_eq {A B} mask (a : list A) (b : list B) :
  length a = length b → length (compress mask a) = length (compress mask b).
Proof.
  revert a b. induction mask as [|[] mask IH]; intros [|x a] [|y b] H; simpl in *;
    try done; auto.
Qed.

Lemma compress_fmap {A B} (f : A → B) mask l :
  compress mask (f <$> l) = f <$> compress mask l.
Proof.
  revert l. induction mask as [|[] mask IH]; intros [|x l]; csimpl; try done.
  by rewrite IH.
Qed.

Lemma np_isin_invert_nil r : np_isin_invert r [] = (λ _, true) <$> r.
Proof.
  unfold np_isin_invert. apply list_fmap_ext. intros _ i _.
  apply bool_decide_eq_true_2. apply not_elem_of_nil.
Qed.

Lemma np_mask_ok {A} (a : list A) mask :
  length mask = length a → np_mask a mask = Ok (compress mask a).
Proof. intros H. unfold np_mask. by rewrite decide_True. Qed.

Lemma np_mask_values_ok a mask :
  length mask = np_len a →
  np_mask_values a mask = Ok (compress_values mask a).
Proof. intros H. destruct a; simpl in *; by rewrite np_mask_ok. Qed.

Lemma as_complex_compress mask a :
  as_complex (compress_values mask a) = compress mask (as_complex a).
Proof. destruct a; simpl; by rewrite ?compress_fmap. Qed.

Lemma is_real_compress mask a : is_real (compress_values mask a) = is_real a.
Proof. by destruct a. Qed.

Lemma as_complex_concatenate4 a b c d :
  as_complex (np_concatenate [a; b; F64 c; F64 d])
  = as_complex a ++ as_complex b ++ (RtoC <$> c) ++ (RtoC <$> d).
Proof.
  unfold np_concatenate. cbn [foldr].
  rewrite !as_complex_concatenate2. cbn [as_complex].
  by rewrite fmap_nil, app_nil_r.
Qed.

Lemma is_real_concatenate4 a b c d :
  is_real (np_concatenate [a; b; F64 c; F64 d]) = is_real a && is_real b.
Proof. by destruct a, b. Qed.

Lemma edge_ids_lt m k : k ∈ edge_ids m → k < length m.(edge_mesh).(edges).
Proof. unfold edge_ids. rewrite elem_of_seq. lia. Qed.

Lemma endpoints_ok m k :
  wf_mesh m → k ∈ edge_ids m →
  site_ok m (endpoint0 m k) ∧ site_ok m (endpoint1 m k).
Proof. intros Hwf Hk. apply (wf_endpoint_item m k Hwf), edge_ids_lt, Hk. Qed.

Lemma area_pos m i : wf_mesh m → site_ok m i → (0 < area m i)%R.
Proof.
  intros Hwf Hi. unfold area, itemZ, site_ok in *.
  pose proof (wf_areas_pos m Hwf) as HF. rewrite Forall_lookup in HF.
  destruct (lookup_lt_is_Some_2 m.(areas) (Z.to_nat i)) as [v Hv].
  { rewrite (wf_areas_len m Hwf). lia. }
  rewrite (nth_lookup_Some _ _ _ _ Hv). by apply (HF (Z.to_nat i)).
Qed.

Lemma laplacian_rows_tab m :
  laplacian_rows m
  = (endpoint0 m <$> edge_ids m) ++ (endpoint1 m <$> edge_ids m)
    ++ (endpoint0 m <$> edge_ids m) ++ (endpoint1 m <$> edge_ids m).
Proof.
  unfold laplacian_rows. cbv zeta.
  rewrite (fmap_item fst (0, 0)%Z _ _ eq_refl).
  by rewrite (fmap_item snd (0, 0)%Z _ _ eq_refl).
Qed.

Lemma length_free_mask m fs free_rows :
  wf_free_rows m free_rows →
  length (free_mask m fs free_rows) = 4 * length (edge_ids m).
Proof.
  intros H. unfold edge_ids. rewrite length_seq.
  destruct free_rows as [mask|]; simpl in *; [done|].
  unfold np_isin_invert. rewrite length_fmap, laplacian_rows_tab.
  rewrite !length_app, !length_fmap. unfold edge_ids. rewrite length_seq. lia.
Qed.

Lemma laplacian_free_triplets_ok m le fs free_rows :
  wf_mesh m → wf_link_exponents m le → wf_free_rows m free_rows →
  let mask := free_mask m (PyArray fs) free_rows in
  ∃ rows cols vals,
    laplacian_free_triplets m le (PyArray fs) free_rows
    = Ok (rows, cols, vals, mask)
    ∧ is_real vals = is_None le
    ∧ zip (zip rows cols) (as_complex vals) = compress mask (laplacian_general m le)
    ∧ length rows = length cols ∧ length rows = np_len vals
    ∧ Forall (site_ok m) rows ∧ Forall (site_ok m) cols.
Proof.
  intros Hwf Hle Hfree mask. unfold laplacian_free_triplets.
  pose proof (length_free_mask m (PyArray fs) free_rows Hfree) as Hmask.
  fold mask in Hmask.
  rewrite (bind_eq_Ok _ _ _
             (broadcast_item Rdiv 0%R 0%R _ _ _ (wf_dual_len m Hwf)
                (wf_lengths_len m Hwf))).
  change (seq 0 (length (edges (edge_mesh m)))) with (edge_ids m).
  change (λ k, (item 0 (dual_edge_lengths (edge_mesh m)) k
                / item 0 (edge_lengths (edge_mesh m)) k)%R) with (edge_weight m).
  rewrite length_fmap.
  destruct (link_weights_ok m le Hwf Hle) as (lv & Hlv & Hreal & Hc & Hcc).
  change (seq 0 (length (edges (edge_mesh m)))) with (edge_ids m) in *.
  rewrite (bind_eq_Ok _ _ _ Hlv).
  rewrite (fmap_item fst (0, 0)%Z _ _ eq_refl).
  rewrite (fmap_item snd (0, 0)%Z _ _ eq_refl).
  change (seq 0 (length (edges (edge_mesh m)))) with (edge_ids m).
  change (λ k, (item (0, 0)%Z (edges (edge_mesh m)) k).1) with (endpoint0 m).
  change (λ k, (item (0, 0)%Z (edges (edge_mesh m)) k).2) with (endpoint1 m).
  assert (Hr0 : ∀ k, k ∈ edge_ids m →
                     (0 ≤ endpoint0 m k < Z.of_nat (length (areas m)))%Z).
  { intros k Hk. rewrite (wf_areas_len m Hwf). by apply endpoints_ok. }
  assert (Hr1 : ∀ k, k ∈ edge_ids m →
                     (0 ≤ endpoint1 m k < Z.of_nat (length (areas m)))%Z).
  { intros k Hk. rewrite (wf_areas_len m Hwf). by apply endpoints_ok. }
  rewrite (bind_eq_Ok _ _ _ (np_take_tab 0%R _ _ _ Hr0)).
  rewrite (bind_eq_Ok _ _ _ (np_take_tab 0%R _ _ _ Hr1)).
  change (λ k, itemZ 0%R (areas m) (endpoint0 m k))
    with (λ k, area m (endpoint0 m k)).
  change (λ k, itemZ 0%R (areas m) (endpoint1 m k))
    with (λ k, area m (endpoint1 m k)).
  assert (Hw : as_complex (F64 (edge_weight m <$> edge_ids m))
               = (λ k, RtoC (edge_weight m k)) <$> edge_ids m).
  { simpl. by rewrite <- list_fmap_compose. }
  destruct (np_multiply_tab _ _ _ _ _ Hw Hc) as (wlv & Hwlv & Hwlvc & Hwlvr).
  rewrite (bind_eq_Ok _ _ _ Hwlv).
  destruct (np_divide_tab wlv (λ k, area m (endpoint0 m k)) _ _ Hwlvc)
    as (v0 & Hv0 & Hv0c & Hv0r).
  { intros k Hk. apply Rgt_not_eq, Rlt_gt, area_pos; [done|].
    by apply endpoints_ok. }
  rewrite (bind_eq_Ok _ _ _ Hv0).
  destruct (np_multiply_tab _ _ _ _ _ Hw Hcc) as (wlvc & Hwlvc' & Hwlvcc & Hwlvcr).
  rewrite (bind_eq_Ok _ _ _ Hwlvc').
  destruct (np_divide_tab wlvc (λ k, area m (endpoint1 m k)) _ _ Hwlvcc)
    as (v1 & Hv1 & Hv1c & Hv1r).
  { intros k Hk. apply Rgt_not_eq, Rlt_gt, area_pos; [done|].
    by apply endpoints_ok. }
  rewrite (bind_eq_Ok _ _ _ Hv1).
  rewrite <- !list_fmap_compose.
  rewrite (bind_eq_Ok _ _ _ (broadcast_tab _ _ _ _)).
  rewrite (bind_eq_Ok _ _ _ (broadcast_tab _ _ _ _)).
  unfold compose.
  replace (match free_rows with
           | Some mask0 => mask0
           | None => _
           end) with mask; cycle 1.
  { unfold mask, free_mask. destruct free_rows; [done|].
    by rewrite laplacian_rows_tab. }
  erewrite bind_eq_Ok; cycle 1.
  { apply np_mask_ok. rewrite Hmask, !length_app, !length_fmap. lia. }
  erewrite bind_eq_Ok; cycle 1.
  { apply np_mask_ok. rewrite Hmask, !length_app, !length_fmap. lia. }
  erewrite bind_eq_Ok; cycle 1.
  { apply np_mask_values_ok.
    rewrite np_len_as_complex, as_complex_concatenate4, Hv0c, Hv1c.
    rewrite Hmask, !length_app, !length_fmap. lia. }
  eexists _, _, _. split; [done|]. split.
  { rewrite is_real_compress, is_real_concatenate4, Hv0r, Hv1r, Hwlvr, Hwlvcr.
    rewrite <- Hreal. by destruct lv. }
  split.
  { rewrite as_complex_compress, <- !compress_zip. f_equal.
    rewrite as_complex_concatenate4, Hv0c, Hv1c.
    rewrite !zip3_app by (by rewrite !length_fmap).
    rewrite <- !list_fmap_compose, !zip3_tab. done. }
  split.
  { apply length_compress_eq. by rewrite !length_app, !length_fmap. }
  split.
  { rewrite np_len_as_complex, as_complex_compress.
    apply length_compress_eq.
    rewrite as_complex_concatenate4, Hv0c, Hv1c.
    by rewrite !length_app, !length_fmap. }
  split; apply Forall_compress; rewrite !Forall_app, !Forall_fmap;
    repeat split; apply Forall_forall; intros k Hk; by apply endpoints_ok.
Qed.

Lemma build_laplacian_ok m le fs free_rows E :
  wf_mesh m → wf_link_exponents m le → wf_fixed_sites m fs →
  wf_free_rows m free_rows →
  ∃ L, build_laplacian m le fs free_rows E = Ok (L, free_mask m fs free_rows)
       ∧ shape L = (length m.(x), length m.(x))
       ∧ is_real (data L) = is_None le
       ∧ triplets L
         = compress (free_mask m fs free_rows) (laplacian_general m le)
           ++ fixed_diagonal (fixed_list fs) E.
Proof.
  intros Hwf Hle Hfs Hfree.
  assert (Haux : ∀ a, Forall (site_ok m) a →
    ∃ L, ('(rows, cols, values, mask) ←
            laplacian_free_triplets m le (PyArray a) free_rows;
          laplacian ←
            coo_matrix
              (np_concatenate2 values
                 (np_map (Rmult E) (Cmult (RtoC E)) (np_ones (length a))))
              (rows ++ a) (cols ++ a) (length m.(x), length m.(x));
          Ok (laplacian, mask))
         = Ok (L, free_mask m (PyArray a) free_rows)
       ∧ shape L = (length m.(x), length m.(x))
       ∧ is_real (data L) = is_None le
       ∧ triplets L
         = compress (free_mask m (PyArray a) free_rows) (laplacian_general m le)
           ++ fixed_diagonal a E).
  { intros a Ha.
    destruct (laplacian_free_triplets_ok m le a free_rows Hwf Hle Hfree)
      as (rows & cols & vals & Hgen & Hreal & Hzip & Hl1 & Hl2 & Hr & Hc).
    rewrite (bind_eq_Ok _ _ _ Hgen). cbv beta iota.
    assert (Hones : as_complex (np_map (Rmult E) (Cmult (RtoC E)) (np_ones (length a)))
                    = (λ _, RtoC E) <$> a).
    { simpl. rewrite replicate_tab, <- !list_fmap_compose.
      apply list_fmap_ext. intros _ f _. simpl. f_equal. lra. }
    rewrite coo_matrix_ok.
    - eexists. split; [done|]. split; [done|]. split.
      + cbn [data]. rewrite is_real_concatenate2, Hreal. simpl.
        by rewrite andb_true_r.
      + unfold triplets. cbn [row col data].
        rewrite as_complex_concatenate2, Hones.
        rewrite zip3_app by (by rewrite <- ?np_len_as_complex).
        rewrite Hzip. f_equal. unfold fixed_diagonal.
        clear. induction a as [|f a IH]; csimpl; [done|]. by f_equal.
    - by rewrite !length_app, Hl1.
    - rewrite np_len_as_complex, as_complex_concatenate2, Hones.
      by rewrite !length_app, length_fmap, <- np_len_as_complex, Hl2.
    - by apply Forall_app.
    - by apply Forall_app. }
  destruct fs as [|a|]; [| |done].
  - apply (Haux []). constructor.
  - apply (Haux a Hfs).
Qed.

(** ** The Laplacian with fixed sites *)

Lemma laplacian_general_rows m le :
  (λ t : Z * Z * C, t.1.1) <$> laplacian_general m le = laplacian_rows m.
Proof.
  rewrite laplacian_rows_tab. unfold laplacian_general.
  by rewrite !fmap_app, <- !list_fmap_compose.
Qed.

Lemma compress_isin (T : list (Z * Z * C)) (fs : list Z) :
  compress (np_isin_invert ((λ t, t.1.1) <$> T) fs) T
  = filter (λ t, t.1.1 ∉ fs) T.
Proof.
  induction T as [|t T IH]; [done|]. csimpl. rewrite filter_cons, IH.
  case_bool_decide; by case_decide.
Qed.

Lemma free_mask_filter m le fs :
  compress (free_mask m fs None) (laplacian_general m le)
  = filter (λ t, t.1.1 ∉ fixed_list fs) (laplacian_general m le).
Proof.
  unfold free_mask. by rewrite <- (laplacian_general_rows m le), compress_isin.
Qed.

Lemma Csum_all_zero {A} (f : A → C) l :
  (∀ a, a ∈ l → f a = C0) → Csum (f <$> l) = C0.
Proof. intros H. rewrite (Csum_ext f (λ _, C0)) by done. apply Csum_zero. Qed.

Lemma Csum_pick (c : C) (f : Z) (l : list Z) :
  NoDup l → f ∈ l →
  Csum ((λ g, if decide (g = f) then c else C0) <$> l) = c.
Proof.
  induction 1 as [|g l Hg Hnd IH]; intros Hf; [by apply elem_of_nil in Hf|].
  csimpl. apply elem_of_cons in Hf as [<-|Hf].
  - rewrite decide_True by done. rewrite Csum_all_zero; [apply Cplus_0_r|].
    intros a Ha. rewrite decide_False; [done|]. by intros ->.
  - rewrite decide_False by (by intros ->). by rewrite IH, Cplus_0_l.
Qed.

(** C3: with a non-empty set of fixed sites (no site listed twice) and
    eigenvalue [E], [build_laplacian] succeeds and every row of the result
    whose index is a fixed site holds [E] on the diagonal and zero in every
    other column. *)
Theorem laplacian_fixed_rows (m : Mesh) (le : pyarg (list (R * R)))
    (fs : list Z) (E : R) :
  wf_mesh m → wf_link_exponents m le →
  Forall (site_ok m) fs → NoDup fs → fs ≠ [] →
  ∃ L mask,
    build_laplacian m le (PyArray fs) None E = Ok (L, mask)
    ∧ ∀ f j, f ∈ fs → entry L f j = if decide (j = f) then RtoC E else C0.
Proof.
  intros Hwf Hle Hfs Hnd _.
  destruct (build_laplacian_ok m le (PyArray fs) None E Hwf Hle Hfs I)
    as (L & HL & _ & _ & Ht).
  exists L, (free_mask m (PyArray fs) None). split; [done|].
  intros f j Hf. rewrite free_mask_filter in Ht. simpl in Ht.
  rewrite (entry_app _ _ _ _ _ Ht).
  rewrite Csum_all_zero; cycle 1.
  { intros t Ht'. apply list_elem_of_filter in Ht' as [Hrow _].
    unfold entry_term. rewrite decide_False; [done|].
    intros [H1 _]. by rewrite H1 in Hrow. }
  rewrite Cplus_0_l. unfold fixed_diagonal.
  rewrite <- list_fmap_compose. unfold compose, entry_term. simpl.
  destruct (decide (j = f)) as [->|Hj].
  - etrans; [|apply (Csum_pick (RtoC E) f fs Hnd Hf)].
    apply Csum_ext. intros g _. simpl.
    destruct (decide (g = f ∧ g = f)) as [[? _]|Hn]; destruct (decide (g = f));
      try done.
    by destruct Hn.
  - apply Csum_all_zero. intros g _. rewrite decide_False; [done|].
    intros [-> ->]. done.
Qed.

(** C1 (as the code has it): with fixed sites and eigenvalue [E] the stored
    triplets are, for every edge [k] from [i] to [j], the off-diagonal
    [(i, j, (dual/length)·linkWeight / area i)], its reverse
    [(j, i, (dual/length)·conj linkWeight / area j)] and the two diagonal
    terms; of these exactly the triplets whose ROW is a fixed site are
    dropped (a triplet in a free row is kept even when its column is fixed),
    and one triplet [(f, f, E)] is appended per fixed site [f]. *)
Theorem laplacian_assembly (m : Mesh) (le : pyarg (list (R * R)))
    (fs : list Z) (E : R) :
  wf_mesh m → wf_link_exponents m le → Forall (site_ok m) fs → fs ≠ [] →
  ∃ L mask,
    build_laplacian m le (PyArray fs) None E = Ok (L, mask)
    ∧ triplets L
      = filter (λ t, t.1.1 ∉ fs) (laplacian_general m le) ++ fixed_diagonal fs E.
Proof.
  intros Hwf Hle Hfs _.
  destruct (build_laplacian_ok m le (PyArray fs) None E Hwf Hle Hfs I)
    as (L & HL & _ & _ & Ht).
  exists L, (free_mask m (PyArray fs) None). split; [done|].
  by rewrite free_mask_filter in Ht.
Qed.

(** ** The externally supplied mask *)

Lemma laplacian_free_triplets_mask m le fs :
  laplacian_free_triplets m le fs (Some (free_mask m fs None))
  = laplacian_free_triplets m le fs None.
Proof.
  unfold laplacian_free_triplets.
  repeat match goal with
         | |- (?r ≫= _) = (?r ≫= _) => destruct r; simpl; [|reflexivity]
         end.
  unfold free_mask, laplacian_rows.
  destruct fs; simpl; rewrite ?np_isin_invert_nil; reflexivity.
Qed.

(** C4: handing [build_laplacian] the mask it computes by itself from the
    fixed sites gives the very result of the call without a mask: the same
    triplets, hence the same matrix, and the same returned mask. *)
Theorem laplacian_mask_roundtrip (m : Mesh) (le : pyarg (list (R * R)))
    (fs : pyarg (list Z)) (E : R) :
  build_laplacian m le fs (Some (free_mask m fs None)) E
  = build_laplacian m le fs None E
  ∧ ∀ L mask,
      build_laplacian m le fs None E = Ok (L, mask) →
      build_laplacian m le fs (Some mask) E = Ok (L, mask).
Proof.
  assert (Heq : build_laplacian m le fs (Some (free_mask m fs None)) E
                = build_laplacian m le fs None E).
  { unfold build_laplacian.
    destruct fs as [|a|].
    - change (free_mask m PyNone None) with (free_mask m (PyArray []) None).
      by rewrite laplacian_free_triplets_mask.
    - by rewrite laplacian_free_triplets_mask.
    - by rewrite laplacian_free_triplets_mask. }
  split; [done|].
  intros L mask HL.
  assert (Hmask : mask = free_mask m fs None); [|subst mask; by rewrite Heq].
  rewrite <- Heq in HL. unfold build_laplacian in HL.
  destruct (laplacian_free_triplets _ _ _ _) as [[[[rows cols] vals] mk]|] eqn:Hgen;
    simpl in HL; [|done].
  assert (mk = free_mask m fs None) as ->.
  { unfold laplacian_free_triplets in Hgen.
    repeat match type of Hgen with
           | (?r ≫= _) = _ => destruct r; simpl in Hgen; [|done]
           end.
    by inversion Hgen. }
  destruct fs as [|a|]; simpl in HL; [| |done].
  - destruct (coo_matrix _ _ _ _); simpl in HL; by inversion HL.
  - destruct (coo_matrix _ _ _ _); simpl in HL; by inversion HL.
Qed.
(** ** Symmetry of the Laplacian without fixed sites *)

Lemma edge_pointwise (e0 e1 i j : Z) (w : R) (lw : C) (ar : Z → R) :
  ar e0 ≠ 0%R → ar e1 ≠ 0%R →
  let T := λ i j,
    Cplus (entry_term i j (e0, e1, Cdiv (Cmult (RtoC w) lw) (RtoC (ar e0))))
      (Cplus (entry_term i j (e1, e0, Cdiv (Cmult (RtoC w) (Cconj lw)) (RtoC (ar e1))))
         (Cplus (entry_term i j (e0, e0, RtoC (- w / ar e0)))
                (entry_term i j (e1, e1, RtoC (- w / ar e1))))) in
  Cmult (RtoC (ar i)) (T i j) = Cconj (Cmult (RtoC (ar j)) (T j i))
  ∧ (Im lw = 0%R →
     Cmult (RtoC (ar i)) (T i j) = Cmult (RtoC (ar j)) (T j i)).
Proof.
  intros H0 H1 T. unfold T, entry_term. simpl.
  rewrite !Cdiv_real by done.
  destruct (decide (e0 = i)), (decide (e1 = i)), (decide (e0 = j)), (decide (e1 = j));
    subst;
    repeat (case_decide; try (exfalso; lia));
    (split; [|intros Him]); apply C_ext; simpl; rewrite ?Him; field; done.
Qed.

Lemma Csum_blocks4 {A} (g : A → C) (f1 f2 f3 f4 : nat → A) s :
  Csum (g <$> ((f1 <$> s) ++ (f2 <$> s) ++ (f3 <$> s) ++ (f4 <$> s)))
  = Csum ((λ k, Cplus (g (f1 k)) (Cplus (g (f2 k)) (Cplus (g (f3 k)) (g (f4 k)))))
            <$> s).
Proof.
  rewrite !fmap_app, !Csum_app, <- !list_fmap_compose.
  by rewrite !Csum_plus.
Qed.

Lemma filter_not_in_nil (T : list (Z * Z * C)) :
  filter (λ t, t.1.1 ∉ []) T = T.
Proof.
  induction T as [|t T IH]; [done|].
  rewrite filter_cons, decide_True by apply not_elem_of_nil. by rewrite IH.
Qed.

Lemma Cmult_real_cancel (a : R) (z w : C) :
  a ≠ 0%R → Cmult (RtoC a) z = Cmult (RtoC a) w → z = w.
Proof.
  intros Ha H. pose proof (f_equal Re H) as Hre. pose proof (f_equal Im H) as Him.
  simpl in Hre, Him. apply C_ext; nra.
Qed.

(** C2 (as the code has it): without fixed sites the Laplacian is real
    exactly when no link exponents are given.  Each row [i] is divided by
    the dual area of site [i], so it is the area-weighted matrix that is
    Hermitian, [area i · L i j = conj (area j · L j i)]; without link
    exponents it is symmetric, [area i · L i j = area j · L j i], and
    [L i j = L j i] holds between sites of equal dual area. *)
Theorem laplacian_weighted_symmetry (m : Mesh) (le : pyarg (list (R * R))) (E : R) :
  wf_mesh m → wf_link_exponents m le →
  ∃ L mask,
    build_laplacian m le PyNone None E = Ok (L, mask)
    ∧ is_real (data L) = is_None le
    ∧ (∀ i j, site_ok m i → site_ok m j →
         Cmult (RtoC (area m i)) (entry L i j)
         = Cconj (Cmult (RtoC (area m j)) (entry L j i)))
    ∧ (le = PyNone → ∀ i j, site_ok m i → site_ok m j →
         Cmult (RtoC (area m i)) (entry L i j)
         = Cmult (RtoC (area m j)) (entry L j i)
         ∧ (area m i = area m j → entry L i j = entry L j i)).
Proof.
  intros Hwf Hle.
  destruct (build_laplacian_ok m le PyNone None E Hwf Hle I I)
    as (L & HL & _ & Hreal & Ht).
  exists L, (free_mask m PyNone None). split; [done|]. split; [done|].
  rewrite free_mask_filter in Ht. simpl in Ht.
  rewrite filter_not_in_nil, app_nil_r in Ht.
  assert (Hentry : ∀ i j, entry L i j
    = Csum ((λ k, Cplus (entry_term i j (lap_forward m le k))
                    (Cplus (entry_term i j (lap_backward m le k))
                       (Cplus (entry_term i j (lap_diag0 m k))
                              (entry_term i j (lap_diag1 m k))))) <$> edge_ids m)).
  { intros i j. unfold entry. rewrite Ht. apply Csum_blocks4. }
  assert (Hpt : ∀ i j k, k ∈ edge_ids m →
    let T := λ i j, Cplus (entry_term i j (lap_forward m le k))
                    (Cplus (entry_term i j (lap_backward m le k))
                       (Cplus (entry_term i j (lap_diag0 m k))
                              (entry_term i j (lap_diag1 m k)))) in
    Cmult (RtoC (area m i)) (T i j) = Cconj (Cmult (RtoC (area m j)) (T j i))
    ∧ (Im (link_weight m le k) = 0%R →
       Cmult (RtoC (area m i)) (T i j) = Cmult (RtoC (area m j)) (T j i))).
  { intros i j k Hk.
    destruct (endpoints_ok m k Hwf Hk) as [Hs0 Hs1].
    apply (edge_pointwise (endpoint0 m k) (endpoint1 m k) i j
             (edge_weight m k) (link_weight m le k) (area m)).
    - apply Rgt_not_eq, Rlt_gt, area_pos; done.
    - apply Rgt_not_eq, Rlt_gt, area_pos; done. }
  split.
  - intros i j _ _. rewrite !Hentry.
    rewrite <- Csum_scale, <- (Csum_scale (RtoC (area m j))), <- Csum_conj.
    apply Csum_ext. intros k Hk. apply (Hpt i j k Hk).
  - intros -> i j Hi Hj.
    assert (Hsym : Cmult (RtoC (area m i)) (entry L i j)
                   = Cmult (RtoC (area m j)) (entry L j i)).
    { rewrite !Hentry.
      rewrite <- Csum_scale, <- (Csum_scale (RtoC (area m j))).
      apply Csum_ext. intros k Hk. by apply (Hpt i j k Hk). }
    split; [done|]. intros Heq. rewrite <- Heq in Hsym.
    apply (Cmult_real_cancel (area m i)); [|done].
    apply Rgt_not_eq, Rlt_gt, area_pos; done.
Qed.

(** ** The Neumann boundary operator *)

Lemma np_take_item {A} (d : A) (a : list A) (idx : list Z) :
  Forall (λ i, (0 ≤ i < Z.of_nat (length a))%Z) idx →
  np_take a idx = Ok ((λ k, itemZ d a (item 0%Z idx k)) <$> seq 0 (length idx)).
Proof.
  intros H.
  etrans; [apply (f_equal (np_take a) (tabulate 0%Z idx))|].
  apply np_take_tab. intros k Hk. apply elem_of_seq in Hk.
  rewrite Forall_lookup in H.
  destruct (lookup_lt_is_Some_2 idx k) as [i Hi]; [lia|].
  unfold item. rewrite (nth_lookup_Some _ _ _ _ Hi). by apply (H k).
Qed.

Lemma boundary_index_ok m k :
  wf_mesh m → k ∈ boundary_ids m →
  (0 ≤ item 0%Z m.(edge_mesh).(boundary_edge_indices) k
     < Z.of_nat (length m.(edge_mesh).(edges)))%Z.
Proof.
  intros Hwf Hk. apply elem_of_seq in Hk.
  pose proof (wf_boundary m Hwf) as H. rewrite Forall_lookup in H.
  destruct (lookup_lt_is_Some_2 m.(edge_mesh).(boundary_edge_indices) k)
    as [i Hi]; [lia|].
  unfold item. rewrite (nth_lookup_Some _ _ _ _ Hi). by apply (H k).
Qed.

Lemma boundary_endpoints_ok m k :
  wf_mesh m → k ∈ boundary_ids m →
  site_ok m (boundary_edge m k).1 ∧ site_ok m (boundary_edge m k).2.
Proof.
  intros Hwf Hk. pose proof (boundary_index_ok m k Hwf Hk) as Hi.
  unfold boundary_edge, itemZ.
  apply (wf_endpoint_item m _ Hwf). lia.
Qed.

Lemma mapM_normalize_ok n (idx : list Z) :
  Forall (λ i, (0 ≤ i < Z.of_nat n)%Z) idx →
  mapM (normalize_index n) idx = Ok idx.
Proof.
  induction 1 as [|i idx Hi _ IH]; [done|].
  change (mapM (normalize_index n) (i :: idx))
    with (normalize_index n i ≫= λ y, mapM (normalize_index n) idx ≫= λ r, Ok (y :: r)).
  rewrite IH. unfold normalize_index.
  rewrite (decide_False (P := (i < 0)%Z)) by lia.
  by rewrite decide_True by lia.
Qed.

Lemma triplets_compress mask shp r c d :
  triplets (SpMatrix shp (compress mask r) (compress mask c) (compress_values mask d))
  = compress mask (triplets (SpMatrix shp r c d)).
Proof.
  unfold triplets. cbn [row col data].
  by rewrite as_complex_compress, !compress_zip.
Qed.

Lemma build_neumann_ok m fs :
  wf_mesh m → wf_fixed_sites m fs →
  ∃ Nm, build_neumann_boundary_laplacian m fs = Ok Nm
        ∧ shape Nm = (length m.(x), length m.(edge_mesh).(boundary_edge_indices))
        ∧ triplets Nm
          = filter (λ t, t.1.1 ∉ fixed_list fs) (neumann_general m).
Proof.
  intros Hwf Hfs. unfold build_neumann_boundary_laplacian.
  pose proof (wf_boundary m Hwf) as Hb.
  rewrite (bind_eq_Ok _ _ _ (np_take_item (0, 0)%Z _ _ Hb)).
  rewrite <- (wf_lengths_len m Hwf) in Hb.
  rewrite (bind_eq_Ok _ _ _ (np_take_item 0%R _ _ Hb)).
  rewrite <- !list_fmap_compose.
  change (seq 0 (length (boundary_edge_indices (edge_mesh m))))
    with (boundary_ids m).
  change (λ k, itemZ (0, 0)%Z (edges (edge_mesh m))
                 (item 0%Z (boundary_edge_indices (edge_mesh m)) k))
    with (boundary_edge m).
  change (λ k, itemZ 0%R (edge_lengths (edge_mesh m))
                 (item 0%Z (boundary_edge_indices (edge_mesh m)) k))
    with (boundary_length m).
  assert (Hr0 : ∀ k, k ∈ boundary_ids m →
            (0 ≤ (fst ∘ boundary_edge m) k < Z.of_nat (length (areas m)))%Z).
  { intros k Hk. rewrite (wf_areas_len m Hwf). by apply boundary_endpoints_ok. }
  assert (Hr1 : ∀ k, k ∈ boundary_ids m →
            (0 ≤ (snd ∘ boundary_edge m) k < Z.of_nat (length (areas m)))%Z).
  { intros k Hk. rewrite (wf_areas_len m Hwf). by apply boundary_endpoints_ok. }
  rewrite (bind_eq_Ok _ _ _ (np_take_tab 0%R _ _ _ Hr0)).
  rewrite <- !list_fmap_compose.
  rewrite (bind_eq_Ok _ _ _ (broadcast_tab _ _ _ _)).
  rewrite (bind_eq_Ok _ _ _ (np_take_tab 0%R _ _ _ Hr1)).
  rewrite <- !list_fmap_compose.
  rewrite (bind_eq_Ok _ _ _ (broadcast_tab _ _ _ _)).
  unfold np_arange.
  change (seq 0 (length (boundary_edge_indices (edge_mesh m))))
    with (boundary_ids m).
  assert (Hgen : ∀ shp,
    triplets (SpMatrix shp
      ((fst ∘ boundary_edge m <$> boundary_ids m)
       ++ (snd ∘ boundary_edge m <$> boundary_ids m))
      ((Z.of_nat <$> boundary_ids m) ++ (Z.of_nat <$> boundary_ids m))
      (F64 (((λ k, boundary_length m k
                   / (Rmult 2 ∘ itemZ 0 (areas m) ∘ (fst ∘ boundary_edge m)) k)%R
               <$> boundary_ids m)
            ++ ((λ k, boundary_length m k
                      / (Rmult 2 ∘ itemZ 0 (areas m) ∘ (snd ∘ boundary_edge m)) k)%R
                  <$> boundary_ids m))))
    = neumann_general m).
  { intros shp. unfold triplets. cbn [row col data as_complex].
    rewrite fmap_app, zip3_app by (by rewrite !length_fmap).
    by rewrite <- !list_fmap_compose, !zip3_tab. }
  assert (Hlen : length (Z.of_nat <$> boundary_ids m)
                 = length m.(edge_mesh).(boundary_edge_indices)).
  { unfold boundary_ids. by rewrite length_fmap, length_seq. }
  rewrite Hlen.
  rewrite coo_matrix_ok; cycle 1.
  { by rewrite !length_app, !length_fmap. }
  { cbn [np_len]. by rewrite !length_app, !length_fmap. }
  { apply Forall_app; split; apply Forall_fmap, Forall_forall; intros k Hk;
      by apply boundary_endpoints_ok. }
  { apply Forall_app; split; apply Forall_fmap, Forall_forall; intros k Hk;
      apply elem_of_seq in Hk; simpl; lia. }
  rewrite bind_Ok.
  destruct fs as [|a|]; [| |done].
  - eexists. split; [done|]. split; [done|].
    rewrite Hgen. simpl. by rewrite filter_not_in_nil.
  - unfold lil_zero_rows. cbn [shape row col data fst].
    rewrite mapM_normalize_ok by done. rewrite bind_Ok.
    eexists. split; [done|]. split; [done|].
    rewrite triplets_compress, Hgen. simpl.
    rewrite <- compress_isin. f_equal. f_equal.
    unfold neumann_general. by rewrite fmap_app, <- !list_fmap_compose.
Qed.

Lemma Csum_filter {A} (P : A → Prop) `{∀ a, Decision (P a)} (g : A → C) l :
  (∀ a, a ∈ l → ¬ P a → g a = C0) →
  Csum (g <$> filter P l) = Csum (g <$> l).
Proof.
  induction l as [|a l IH]; intros Hg; [done|].
  rewrite filter_cons. csimpl.
  assert (Hl : ∀ b, b ∈ l → ¬ P b → g b = C0).
  { intros b Hb. apply Hg. by right. }
  destruct (decide (P a)) as [Ha|Ha]; csimpl.
  - by rewrite IH.
  - rewrite (Hg a) by (done || left). by rewrite Cplus_0_l, IH.
Qed.

(** C7: the Neumann boundary operator is an N×B matrix; the column of the
    [k]-th boundary edge holds [length / (2·area)] in the row of each of the
    edge's two endpoints that is not a fixed site, and the rows of fixed
    sites are zero in every column. *)
Theorem neumann_operator (m : Mesh) (fs : pyarg (list Z)) :
  wf_mesh m → wf_fixed_sites m fs →
  ∃ Nm, build_neumann_boundary_laplacian m fs = Ok Nm
        ∧ shape Nm = (length m.(x), length m.(edge_mesh).(boundary_edge_indices))
        ∧ (∀ (s : Z) (k : nat) (e end0 end1 : Z) (len : R),
             m.(edge_mesh).(boundary_edge_indices) !! k = Some e →
             m.(edge_mesh).(edges) !! Z.to_nat e = Some (end0, end1) →
             m.(edge_mesh).(edge_lengths) !! Z.to_nat e = Some len →
             s ∉ fixed_list fs →
             entry Nm s (Z.of_nat k)
             = Cplus (if decide (end0 = s)
                      then RtoC (len / (2 * area m s)) else C0)
                     (if decide (end1 = s)
                      then RtoC (len / (2 * area m s)) else C0))
        ∧ (∀ f j, f ∈ fixed_list fs → entry Nm f j = C0).
Proof.
  intros Hwf Hfs.
  destruct (build_neumann_ok m fs Hwf Hfs) as (Nm & HN & Hshape & Ht).
  exists Nm. split; [done|]. split; [done|]. split.
  - intros s k e end0 end1 len Hk He Hlen Hs.
    unfold entry. rewrite Ht. rewrite Csum_filter; cycle 1.
    { intros t _ Hrow. unfold entry_term. rewrite decide_False; [done|].
      intros [H1 _]. apply Hrow. by rewrite H1. }
    unfold neumann_general. rewrite fmap_app, Csum_app, <- !list_fmap_compose.
    assert (Hsel : ∀ g : nat → Z * Z * C,
      (∀ k', (g k').1.2 = Z.of_nat k') →
      Csum (entry_term s (Z.of_nat k) ∘ g <$> boundary_ids m)
      = if decide ((g k).1.1 = s) then (g k).2 else C0).
    { intros g Hg.
      rewrite (Csum_ext _ (λ k', if decide (Z.of_nat k' = Z.of_nat k)
                                 then (if decide ((g k').1.1 = s)
                                       then (g k').2 else C0)
                                 else C0)); cycle 1.
      { intros k' _. unfold compose, entry_term. rewrite Hg.
        destruct (decide (Z.of_nat k' = Z.of_nat k)), (decide ((g k').1.1 = s)).
        - by rewrite decide_True.
        - rewrite decide_False; [done|]. by intros [? _].
        - rewrite decide_False; [done|]. by intros [_ ?].
        - rewrite decide_False; [done|]. by intros [_ ?]. }
      unfold boundary_ids. rewrite Csum_select.
      pose proof (lookup_lt_Some _ _ _ Hk).
      rewrite decide_True by lia. by rewrite Nat2Z.id. }
    rewrite !Hsel by done.
    unfold neumann_term0, neumann_term1, boundary_edge, boundary_length.
    cbn [fst snd].
    rewrite (item_lookup _ _ _ _ Hk).
    unfold itemZ. rewrite (nth_lookup_Some _ _ _ _ He), (nth_lookup_Some _ _ _ _ Hlen).
    cbn [fst snd].
    f_equal; case_decide as Hd; by rewrite ?Hd.
  - intros f j Hf. unfold entry. rewrite Ht.
    apply Csum_all_zero. intros t Ht'.
    apply list_elem_of_filter in Ht' as [Hrow _].
    unfold entry_term. rewrite decide_False; [done|].
    intros [H1 _]. by rewrite H1 in Hrow.
Qed.

(** ** The builder *)

Lemma is_Ok_Ok {A} (a : A) : is_Ok (Ok a).
Proof. by exists a. Qed.

(** C8 (as the code has it): for a builder whose mesh is well formed and
    whose fixed sites and link exponents are absent or arrays that fit the
    mesh, and a mask that is absent or has one flag per triplet, [build]
    raises ValueError exactly when the requested kind is not a member of
    the enumeration, and returns an operator for each of the four members. *)
Theorem build_total (σ : store) (self : loc) (b : MatrixBuilder) (m : Mesh)
    (matrix_type : pyvalue) (free_rows : option (list bool)) :
  σ.(builders) !! self = Some b →
  wf_builder σ b m →
  wf_free_rows m free_rows →
  (build self matrix_type free_rows σ = Raise ValueError
   ↔ ∀ t, matrix_type ≠ Member t)
  ∧ (∀ t, matrix_type = Member t → is_Ok (build self matrix_type free_rows σ)).
Proof.
  intros Hb (Hm & Hwf & (le & Hle & Hwle) & (fs & Hfs & Hwfs)) Hfree.
  assert (Hok : ∀ t, is_Ok (build self (Member t) free_rows σ)).
  { intros t. unfold build, find. rewrite Hb. cbn [mbind result_bind].
    rewrite Hm. cbn [mbind result_bind].
    destruct t.
    - rewrite Hle, Hfs. cbn [mbind result_bind].
      destruct (build_laplacian_ok m le fs free_rows
                  b.(fixed_sites_eigenvalue) Hwf Hwle Hwfs Hfree)
        as (L & -> & _).
      apply is_Ok_Ok.
    - rewrite Hfs. cbn [mbind result_bind].
      destruct (build_neumann_ok m fs Hwf Hwfs) as (Nm & -> & _).
      apply is_Ok_Ok.
    - destruct (divergence_triplets m Hwf) as (D & -> & _). apply is_Ok_Ok.
    - rewrite Hle. cbn [mbind result_bind].
      destruct (build_gradient_ok m le Hwf Hwle) as (G & -> & _).
      apply is_Ok_Ok. }
  split; [|by intros t ->].
  destruct matrix_type as [t|repr].
  - split.
    + intros Hraise. destruct (Hok t) as [v Hv]. congruence.
    + intros Hne. by destruct (Hne t).
  - split; [done|]. intros _. unfold build, find. by rewrite Hb.
Qed.

Lemma np_copy_None {A} (h : gmap loc (ndobject A)) l h' :
  np_copy h None = Ok (l, h') → load h' (Some l) = Ok PyObject0.
Proof.
  unfold np_copy, alloc. intros [= <- <-]. unfold load, find.
  by rewrite lookup_insert_eq.
Qed.

(** C10: cloning a builder whose [fixed_sites] (or [link_exponents]) is
    [None] succeeds and leaves in the clone's field not [None] but the
    zero-dimensional object array of [np.copy(None)]; the [is None] test of
    the assembly functions is true on the original's field and false on the
    clone's. *)
Theorem clone_of_None (σ : store) (self : loc) (b : MatrixBuilder) :
  σ.(builders) !! self = Some b →
  (b.(fixed_sites) = None → b.(link_exponents) = None → is_Ok (clone self σ))
  ∧ ∀ c σ',
      clone self σ = Ok (c, σ') →
      ∃ b', σ'.(builders) !! c = Some b'
            ∧ (b.(fixed_sites) = None →
               is_None <$> load σ.(int_arrays) b.(fixed_sites) = Ok true
               ∧ load σ'.(int_arrays) b'.(fixed_sites) = Ok PyObject0
               ∧ is_None <$> load σ'.(int_arrays) b'.(fixed_sites) = Ok false)
            ∧ (b.(link_exponents) = None →
               is_None <$> load σ.(float_arrays) b.(link_exponents) = Ok true
               ∧ load σ'.(float_arrays) b'.(link_exponents) = Ok PyObject0
               ∧ is_None <$> load σ'.(float_arrays) b'.(link_exponents)
                 = Ok false).
Proof.
  intros Hb. split.
  - intros Hfs Hle. unfold clone, find. rewrite Hb.
    cbn [mbind result_bind]. rewrite Hfs, Hle.
    unfold MatrixBuilder_init, np_copy, alloc. cbn. apply is_Ok_Ok.
  - intros c σ' Hclone. unfold clone, find in Hclone. rewrite Hb in Hclone.
    unfold MatrixBuilder_init, alloc in Hclone.
    cbn [mbind result_bind int_arrays float_arrays builders meshes] in Hclone.
    destruct (np_copy (int_arrays σ) (fixed_sites b)) as [[fs ints]|] eqn:Hcfs;
      [|done].
    cbn [mbind result_bind] in Hclone.
    destruct (np_copy (float_arrays σ) (link_exponents b)) as [[le floats]|] eqn:Hcle;
      [|done].
    cbn [mbind result_bind] in Hclone. injection Hclone as <- <-.
    eexists. split; [apply lookup_insert_eq|].
    cbn [int_arrays float_arrays fixed_sites link_exponents]. split.
    + intros Hnone. rewrite Hnone in Hcfs |- *.
      by rewrite (np_copy_None _ _ _ Hcfs).
    + intros Hnone. rewrite Hnone in Hcle |- *.
      by rewrite (np_copy_None _ _ _ Hcle).
Qed.

(** ** Isolation of a clone *)

Lemma load_ext {A} (h h' : gmap loc (ndobject A)) (r : option loc) :
  (∀ l, r = Some l → h' !! l = h !! l) → load h' r = load h r.
Proof.
  intros H. destruct r as [l|]; [|done]. unfold load, find. by rewrite (H l).
Qed.

Lemma build_frame (c : loc) (bc : MatrixBuilder) (σ σ' : store) mt fr :
  σ.(builders) !! c = Some bc → σ'.(builders) !! c = Some bc →
  same_view bc σ σ' →
  build c mt fr σ' = build c mt fr σ.
Proof.
  intros Hc Hc' (Hm & Hi & Hf). unfold build, find.
  rewrite Hc, Hc', Hm. cbn [mbind result_bind].
  by rewrite (load_ext _ _ _ Hi), (load_ext _ _ _ Hf).
Qed.

Lemma np_asarray_frame {A} (h h' : gmap loc (ndobject A)) s a l :
  np_asarray h s = (a, h') → is_Some (h !! l) →
  h' !! l = h !! l ∧ (match s with NdArrayRef r => a = r | PyList _ => a ≠ l end).
Proof.
  destruct s as [v|r]; simpl.
  - unfold alloc. intros [= <- <-] Hl.
    assert (Hne : fresh (dom h) ≠ l).
    { intros <-. by apply elem_of_dom, is_fresh in Hl. }
    split; [by apply lookup_insert_ne|done].
  - by intros [= <- <-] _.
Qed.

Lemma ndarray_setitem_frame {A} (h h' : gmap loc (ndobject (list A))) r i v l :
  ndarray_setitem h r i v = Ok h' → r ≠ Some l →
  h' !! l = h !! l.
Proof.
  unfold ndarray_setitem, find. destruct r as [l0|]; [|done].
  destruct (h !! l0) as [[a|]|]; cbn [mbind result_bind]; [|done..].
  case_decide; [|done]. intros [= <-] Hne.
  apply lookup_insert_ne. congruence.
Qed.

Lemma same_view_refl bc σ : same_view bc σ σ.
Proof. by repeat split. Qed.

Lemma same_view_trans bc σ1 σ2 σ3 :
  same_view bc σ1 σ2 → same_view bc σ2 σ3 → same_view bc σ1 σ3.
Proof.
  intros (Hm & Hi & Hf) (Hm' & Hi' & Hf'). repeat split.
  - congruence.
  - intros l Hl. rewrite (Hi' l Hl). by apply Hi.
  - intros l Hl. rewrite (Hf' l Hl). by apply Hf.
Qed.

Lemma mutate_isolated (σ σ' : store) (self c r : loc) (bc : MatrixBuilder) μ :
  isolated σ self c bc → avoids bc μ →
  mutate self μ σ = Ok (r, σ') →
  isolated σ' self c bc ∧ same_view bc σ σ'.
Proof.
  intros (Hne & Hc & Hsep & Hi & Hf) Hav Hmut.
  destruct μ as [s E|s|i v|i v]; simpl in Hmut.
  - unfold with_dirichlet_boundary, find in Hmut.
    destruct (builders σ !! self) as [b|] eqn:Hb; [|done].
    cbn [mbind result_bind] in Hmut.
    destruct (np_asarray (int_arrays σ) s) as [a ints] eqn:Ha.
    injection Hmut as <- <-.
    assert (Hkeep : ∀ l, fixed_sites bc = Some l →
              ints !! l = int_arrays σ !! l ∧ a ≠ l).
    { intros l Hl.
      destruct (np_asarray_frame _ _ _ _ l Ha (Hi l Hl)) as [Hlk Hs].
      split; [done|]. destruct s as [v|r0]; [done|]. subst a.
      simpl in Hav. congruence. }
    split.
    + split; [done|]. cbn [builders int_arrays float_arrays].
      split; [by rewrite lookup_insert_ne|].
      split; [|split].
      * intros b'. rewrite lookup_insert_eq. intros [= <-]. cbn. split.
        -- intros l Hl [= Heq]. by destruct (Hkeep l Hl).
        -- apply (Hsep b eq_refl).
      * intros l Hl. destruct (Hkeep l Hl) as [-> _]. by apply Hi.
      * done.
    + split; [done|]. split; [|done]. intros l Hl. by apply Hkeep.
  - unfold with_link_exponents, find in Hmut.
    destruct (builders σ !! self) as [b|] eqn:Hb; [|done].
    cbn [mbind result_bind] in Hmut.
    destruct (np_asarray (float_arrays σ) s) as [a floats] eqn:Ha.
    injection Hmut as <- <-.
    assert (Hkeep : ∀ l, link_exponents bc = Some l →
              floats !! l = float_arrays σ !! l ∧ a ≠ l).
    { intros l Hl.
      destruct (np_asarray_frame _ _ _ _ l Ha (Hf l Hl)) as [Hlk Hs].
      split; [done|]. destruct s as [v|r0]; [done|]. subst a.
      simpl in Hav. congruence. }
    split.
    + split; [done|]. cbn [builders int_arrays float_arrays].
      split; [by rewrite lookup_insert_ne|].
      split; [|split].
      * intros b'. rewrite lookup_insert_eq. intros [= <-]. cbn. split.
        -- apply (Hsep b eq_refl).
        -- intros l Hl [= Heq]. by destruct (Hkeep l Hl).
      * done.
      * intros l Hl. destruct (Hkeep l Hl) as [-> _]. by apply Hf.
    + split; [done|]. split; [done|]. intros l Hl. by apply Hkeep.
  - unfold find in Hmut.
    destruct (builders σ !! self) as [b|] eqn:Hb; [|done].
    cbn [mbind result_bind] in Hmut.
    destruct (ndarray_setitem _ _ _ _) as [ints|] eqn:Hset; [|done].
    injection Hmut as <- <-.
    assert (Hkeep : ∀ l, fixed_sites bc = Some l →
              ints !! l = int_arrays σ !! l).
    { intros l Hl. apply (ndarray_setitem_frame _ _ _ _ _ _ Hset).
      by apply (Hsep b eq_refl). }
    split.
    + split; [done|]. cbn [builders int_arrays float_arrays].
      split; [done|]. split; [by rewrite Hb|]. split; [|done].
      intros l Hl. rewrite (Hkeep l Hl). by apply Hi.
    + split; [done|]. by split.
  - unfold find in Hmut.
    destruct (builders σ !! self) as [b|] eqn:Hb; [|done].
    cbn [mbind result_bind] in Hmut.
    destruct (ndarray_setitem _ _ _ _) as [floats|] eqn:Hset; [|done].
    injection Hmut as <- <-.
    assert (Hkeep : ∀ l, link_exponents bc = Some l →
              floats !! l = float_arrays σ !! l).
    { intros l Hl. apply (ndarray_setitem_frame _ _ _ _ _ _ Hset).
      by apply (Hsep b eq_refl). }
    split.
    + split; [done|]. cbn [builders int_arrays float_arrays].
      split; [done|]. split; [by rewrite Hb|]. split; [done|].
      intros l Hl. rewrite (Hkeep l Hl). by apply Hf.
    + split; [done|]. by split.
Qed.

Lemma mutate_all_isolated (μs : list mutation) (σ σ' : store) (self c : loc)
    (bc : MatrixBuilder) :
  isolated σ self c bc → Forall (avoids bc) μs →
  mutate_all self μs σ = Ok σ' →
  isolated σ' self c bc ∧ same_view bc σ σ'.
Proof.
  revert σ. induction μs as [|μ μs IH]; intros σ Hiso Hav Hrun; simpl in Hrun.
  - injection Hrun as <-. split; [done|apply same_view_refl].
  - apply Forall_cons in Hav as [Hav Havs].
    destruct (mutate self μ σ) as [[r σ1]|] eqn:Hmut; [|done].
    cbn [mbind result_bind] in Hrun.
    destruct (mutate_isolated _ _ _ _ _ _ _ Hiso Hav Hmut) as [Hiso1 Hv1].
    destruct (IH σ1 Hiso1 Havs Hrun) as [Hiso2 Hv2].
    split; [done|]. by apply (same_view_trans bc σ σ1 σ').
Qed.

Lemma np_copy_spec {A} (h h' : gmap loc (ndobject A)) (r : option loc) (l : loc) :
  np_copy h r = Ok (l, h') →
  h !! l = None
  ∧ is_Some (h' !! l)
  ∧ r ≠ Some l
  ∧ (is_Some r → load h' (Some l) = load h r).
Proof.
  unfold np_copy, find, alloc. destruct r as [l0|].
  - destruct (h !! l0) as [o|] eqn:Hl0; cbn [mbind result_bind]; [|done].
    intros [= <- <-].
    assert (Hfresh : h !! fresh (dom h) = None) by apply not_elem_of_dom, is_fresh.
    split; [done|]. split; [by rewrite lookup_insert_eq|]. split.
    + intros [= Heq]. rewrite Heq in Hl0. congruence.
    + intros _. unfold load, find. by rewrite lookup_insert_eq, Hl0.
  - intros [= <- <-].
    assert (Hfresh : h !! fresh (dom h) = None) by apply not_elem_of_dom, is_fresh.
    split; [done|]. split; [by rewrite lookup_insert_eq|]. split; [done|].
    by intros [? ?].
Qed.

Lemma clone_spec (σ σ1 : store) (self c : loc) (b : MatrixBuilder) :
  σ.(builders) !! self = Some b →
  clone self σ = Ok (c, σ1) →
  ∃ bc, isolated σ1 self c bc
        ∧ σ1.(builders) !! self = Some b
        ∧ bc.(mesh) = b.(mesh)
        ∧ bc.(fixed_sites_eigenvalue) = b.(fixed_sites_eigenvalue)
        ∧ σ1.(meshes) = σ.(meshes)
        ∧ (is_Some b.(fixed_sites) →
           load σ1.(int_arrays) bc.(fixed_sites)
           = load σ.(int_arrays) b.(fixed_sites))
        ∧ (is_Some b.(link_exponents) →
           load σ1.(float_arrays) bc.(link_exponents)
           = load σ.(float_arrays) b.(link_exponents)).
Proof.
  intros Hb Hclone. unfold clone, find in Hclone. rewrite Hb in Hclone.
  unfold MatrixBuilder_init, alloc in Hclone.
  cbn [mbind result_bind int_arrays float_arrays builders meshes] in Hclone.
  destruct (np_copy (int_arrays σ) (fixed_sites b)) as [[fs ints]|] eqn:Hcfs;
    [|done].
  cbn [mbind result_bind] in Hclone.
  destruct (np_copy (float_arrays σ) (link_exponents b)) as [[le floats]|] eqn:Hcle;
    [|done].
  cbn [mbind result_bind] in Hclone. injection Hclone as <- <-.
  destruct (np_copy_spec _ _ _ _ Hcfs) as (_ & Hfs1 & Hfs2 & Hfs3).
  destruct (np_copy_spec _ _ _ _ Hcle) as (_ & Hle1 & Hle2 & Hle3).
  assert (Hne : fresh (dom (builders σ)) ≠ self).
  { intros Heq. pose proof (is_fresh (dom (builders σ))) as Hf.
    rewrite Heq in Hf. apply Hf, elem_of_dom. by eexists. }
  assert (Hself : ∀ bx, <[fresh (dom (builders σ)) := bx]>
                          (<[fresh (dom (builders σ)) := {|
                               mesh := mesh b; fixed_sites := None;
                               fixed_sites_eigenvalue := 1;
                               link_exponents := None |}]> (builders σ))
                        !! self = Some b).
  { intros bx. by rewrite !lookup_insert_ne. }
  eexists. split; [|split; [apply Hself|]].
  - split; [done|]. cbn [builders int_arrays float_arrays].
    split; [apply lookup_insert_eq|]. split; [|split].
    + intros b0. rewrite Hself. intros [= <-]. cbn. split.
      * intros l [= <-]. done.
      * intros l [= <-]. done.
    + cbn. by intros l [= <-].
    + cbn. by intros l [= <-].
  - cbn. repeat split; done.
Qed.

(** X20: a clone shares the mesh reference and is unaffected by what is done to
    the original afterwards, be it rebinding the original's fixed sites or
    link exponents or writing into the original's arrays in place (as long
    as the clone's own arrays are not handed to the original). *)
Theorem clone_isolation (σ σ1 : store) (self c : loc) (b : MatrixBuilder) :
  σ.(builders) !! self = Some b →
  clone self σ = Ok (c, σ1) →
  ∃ bc, σ1.(builders) !! c = Some bc
        ∧ bc.(mesh) = b.(mesh)
        ∧ ∀ μs σ2,
            Forall (avoids bc) μs →
            mutate_all self μs σ1 = Ok σ2 →
            ∀ matrix_type free_rows,
              build c matrix_type free_rows σ2 = build c matrix_type free_rows σ1.
Proof.
  intros Hb Hclone.
  destruct (clone_spec _ _ _ _ _ Hb Hclone) as (bc & Hiso & _ & Hmesh & _).
  exists bc. split; [apply Hiso|]. split; [done|].
  intros μs σ2 Hav Hrun mt fr.
  destruct (mutate_all_isolated _ _ _ _ _ _ Hiso Hav Hrun) as [Hiso2 Hview].
  apply (build_frame c bc); [apply Hiso|apply Hiso2|done].
Qed.

(** X21: when the original's fixed sites and link exponents are both set, the
    clone builds what the original builds. *)
Theorem clone_builds_same (σ σ1 : store) (self c : loc) (b : MatrixBuilder) :
  σ.(builders) !! self = Some b →
  is_Some b.(fixed_sites) → is_Some b.(link_exponents) →
  clone self σ = Ok (c, σ1) →
  ∀ matrix_type free_rows,
    build c matrix_type free_rows σ1 = build self matrix_type free_rows σ.
Proof.
  intros Hb Hfs Hle Hclone mt fr.
  destruct (clone_spec _ _ _ _ _ Hb Hclone)
    as (bc & Hiso & _ & Hmesh & HE & Hm & Hlfs & Hlle).
  destruct Hiso as (_ & Hc & _).
  unfold build, find. rewrite Hc, Hb. cbn [mbind result_bind].
  by rewrite Hm, Hmesh, HE, (Hlfs Hfs), (Hlle Hle).
Qed.

(** ** How the operators compose *)

Lemma item_tab {A} (d : A) (f : nat → A) n k :
  k < n → item d (f <$> seq 0 n) k = f k.
Proof.
  intros Hk. unfold item. rewrite nth_lookup, list_lookup_fmap.
  by rewrite lookup_seq_lt.
Qed.

Lemma vec_get_replicate n c j :
  (0 ≤ j < Z.of_nat n)%Z → vec_get (replicate n c) j = c.
Proof.
  intros Hj. unfold vec_get. rewrite decide_True by lia.
  rewrite lookup_replicate_2 by lia. done.
Qed.

Lemma Csum_swap {A B} (f : A → B → C) (la : list A) (lb : list B) :
  Csum ((λ a, Csum (f a <$> lb)) <$> la)
  = Csum ((λ b, Csum ((λ a, f a b) <$> la)) <$> lb).
Proof.
  induction la as [|a la IH]; csimpl.
  - by rewrite Csum_zero.
  - by rewrite IH, <- Csum_plus.
Qed.

(** A sum over triplets whose column is the position: one term survives. *)
Lemma Csum_entry_col (g : nat → Z * Z * C) (n k : nat) (s : Z) :
  (∀ k', (g k').1.2 = Z.of_nat k') →
  Csum (entry_term s (Z.of_nat k) ∘ g <$> seq 0 n)
  = if decide (k < n) then (if decide ((g k).1.1 = s) then (g k).2 else C0)
    else C0.
Proof.
  intros Hg.
  rewrite (Csum_ext _ (λ k', if decide (Z.of_nat k' = Z.of_nat k)
                             then (if decide ((g k').1.1 = s)
                                   then (g k').2 else C0)
                             else C0)); cycle 1.
  { intros k' _. unfold compose, entry_term. rewrite Hg.
    destruct (decide (Z.of_nat k' = Z.of_nat k)), (decide ((g k').1.1 = s)).
    - by rewrite decide_True.
    - rewrite decide_False; [done|]. by intros [? _].
    - rewrite decide_False; [done|]. by intros [_ ?].
    - rewrite decide_False; [done|]. by intros [_ ?]. }
  rewrite Csum_select.
  destruct (decide (k < n)).
  - rewrite decide_True by lia. by rewrite Nat2Z.id.
  - by rewrite decide_False by lia.
Qed.

(** A sum over triplets whose row is the position. *)
Lemma Csum_entry_row (g : nat → Z * Z * C) (n k : nat) (s : Z) :
  (∀ k', (g k').1.1 = Z.of_nat k') →
  Csum (entry_term (Z.of_nat k) s ∘ g <$> seq 0 n)
  = if decide (k < n) then (if decide ((g k).1.2 = s) then (g k).2 else C0)
    else C0.
Proof.
  intros Hg.
  rewrite (Csum_ext _ (λ k', if decide (Z.of_nat k' = Z.of_nat k)
                             then (if decide ((g k').1.2 = s)
                                   then (g k').2 else C0)
                             else C0)); cycle 1.
  { intros k' _. unfold compose, entry_term. rewrite Hg.
    destruct (decide (Z.of_nat k' = Z.of_nat k)), (decide ((g k').1.2 = s)).
    - by rewrite decide_True.
    - rewrite decide_False; [done|]. by intros [_ ?].
    - rewrite decide_False; [done|]. by intros [? _].
    - rewrite decide_False; [done|]. by intros [? _]. }
  rewrite Csum_select.
  destruct (decide (k < n)).
  - rewrite decide_True by lia. by rewrite Nat2Z.id.
  - by rewrite decide_False by lia.
Qed.

Lemma edge_length_pos m k :
  wf_mesh m → k ∈ edge_ids m →
  (0 < edge_length m k)%R.
Proof.
  intros Hwf Hk. apply edge_ids_lt in Hk. unfold edge_length.
  pose proof (wf_lengths_pos m Hwf) as HF. rewrite Forall_lookup in HF.
  destruct (lookup_lt_is_Some_2 m.(edge_mesh).(edge_lengths) k) as [v Hv].
  { by rewrite (wf_lengths_len m Hwf). }
  rewrite (item_lookup _ _ _ _ Hv). by apply (HF k).
Qed.

(** The three operators without link exponents and fixed sites, with the
    triplets each of them stores. *)
Lemma plain_operators m E :
  wf_mesh m →
  ∃ G D L mask,
    build_gradient m PyNone = Ok G
    ∧ build_divergence m = Ok D
    ∧ build_laplacian m PyNone PyNone None E = Ok (L, mask)
    ∧ shape G = (length m.(edge_mesh).(edges), length m.(x))
    ∧ shape D = (length m.(x), length m.(edge_mesh).(edges))
    ∧ shape L = (length m.(x), length m.(x))
    ∧ triplets G
      = ((λ k, (Z.of_nat k, endpoint1 m k,
                Cmult C1 (RtoC (1 / edge_length m k)))) <$> edge_ids m)
        ++ ((λ k, (Z.of_nat k, endpoint0 m k,
                   RtoC (- (1 / edge_length m k)))) <$> edge_ids m)
    ∧ triplets D
      = ((λ k, (endpoint0 m k, Z.of_nat k,
                RtoC (dual_length m k / area m (endpoint0 m k)))) <$> edge_ids m)
        ++ ((λ k, (endpoint1 m k, Z.of_nat k,
                   RtoC (- dual_length m k / area m (endpoint1 m k)))) <$> edge_ids m)
    ∧ triplets L = laplacian_general m PyNone.
Proof.
  intros Hwf.
  destruct (build_gradient_ok m PyNone Hwf I) as (G & HG & HsG & _ & HtG).
  destruct (divergence_triplets m Hwf) as (D & HD & HsD & HtD).
  destruct (build_laplacian_ok m PyNone PyNone None E Hwf I I I)
    as (L & HL & HsL & _ & HtL).
  rewrite free_mask_filter in HtL. simpl in HtL.
  rewrite filter_not_in_nil, app_nil_r in HtL.
  exists G, D, L, (free_mask m PyNone None).
  repeat (split; [done|]). done.
Qed.

Lemma endpoints_in_range m k :
  wf_mesh m → k ∈ edge_ids m →
  (0 ≤ endpoint0 m k < Z.of_nat (length m.(x)))%Z
  ∧ (0 ≤ endpoint1 m k < Z.of_nat (length m.(x)))%Z.
Proof. intros Hwf Hk. by apply endpoints_ok. Qed.

Lemma nonzero_of_pos (r : R) : (0 < r)%R → r ≠ 0%R.
Proof. intros H. by apply Rgt_not_eq, Rlt_gt. Qed.

(** Row [k] of the plain gradient applied to [φ]. *)
Lemma plain_gradient_row (G : spmatrix) m (φ : list C) (k : nat) :
  triplets G
  = ((λ k, (Z.of_nat k, endpoint1 m k,
            Cmult C1 (RtoC (1 / edge_length m k)))) <$> edge_ids m)
    ++ ((λ k, (Z.of_nat k, endpoint0 m k,
               RtoC (- (1 / edge_length m k)))) <$> edge_ids m) →
  k ∈ edge_ids m →
  matvec G φ (Z.of_nat k)
  = Cplus (Cmult (Cmult C1 (RtoC (1 / edge_length m k))) (vec_get φ (endpoint1 m k)))
          (Cmult (RtoC (- (1 / edge_length m k))) (vec_get φ (endpoint0 m k))).
Proof.
  intros Ht Hk. apply edge_ids_lt in Hk.
  rewrite (matvec_app _ _ _ _ _ Ht), <- !list_fmap_compose.
  unfold compose, matvec_term, edge_ids. simpl.
  rewrite !Csum_select. rewrite !decide_True by lia. by rewrite Nat2Z.id.
Qed.

(** X2: the gradient matrix built without link exponents sends every
    constant site vector to the zero edge vector (as a uniform site field
    has no gradient in the vorticity computation of [get_plot_data]). *)
Theorem gradient_of_constant (m : Mesh) (c : C) :
  wf_mesh m →
  ∃ G, build_gradient m PyNone = Ok G
       ∧ matmul G (replicate (length m.(x)) c)
         = Ok (replicate (length m.(edge_mesh).(edges)) C0).
Proof.
  intros Hwf.
  destruct (plain_operators m 1%R Hwf)
    as (G & D & L & mask & HG & _ & _ & HsG & _ & _ & HtG & _).
  exists G. split; [done|]. unfold matmul. rewrite HsG. cbn [fst snd].
  rewrite decide_True by apply length_replicate. f_equal.
  replace (replicate (length (edges (edge_mesh m))) C0)
    with ((λ _ : nat, C0) <$> seq 0 (length (edges (edge_mesh m))))
    by (by rewrite <- replicate_tab, length_seq).
  apply list_fmap_ext. intros _ k Hk%list_elem_of_lookup_2.
  rewrite (plain_gradient_row G m _ k HtG Hk).
  destruct (endpoints_in_range m k Hwf Hk) as [H0 H1].
  rewrite !vec_get_replicate by done.
  apply C_ext; simpl; ring.
Qed.

Lemma matvec_blocks4 (L : spmatrix) (f1 f2 f3 f4 : nat → Z * Z * C) s v i :
  triplets L = (f1 <$> s) ++ (f2 <$> s) ++ (f3 <$> s) ++ (f4 <$> s) →
  matvec L v i
  = Csum ((λ k, Cplus (matvec_term v i (f1 k))
                  (Cplus (matvec_term v i (f2 k))
                     (Cplus (matvec_term v i (f3 k))
                            (matvec_term v i (f4 k))))) <$> s).
Proof. intros Ht. unfold matvec. rewrite Ht. apply Csum_blocks4. Qed.

Lemma matvec_blocks2 (D : spmatrix) (f1 f2 : nat → Z * Z * C) s v i :
  triplets D = (f1 <$> s) ++ (f2 <$> s) →
  matvec D v i
  = Csum ((λ k, Cplus (matvec_term v i (f1 k)) (matvec_term v i (f2 k))) <$> s).
Proof.
  intros Ht. rewrite (matvec_app _ _ _ _ _ Ht), <- !list_fmap_compose.
  by rewrite <- Csum_plus.
Qed.

(** X3: the Laplacian built without link exponents and fixed sites sends
    every constant site vector to zero: each of its rows sums to zero,
    whatever eigenvalue is passed. *)
Theorem laplacian_of_constant (m : Mesh) (c : C) (E : R) :
  wf_mesh m →
  ∃ L mask, build_laplacian m PyNone PyNone None E = Ok (L, mask)
            ∧ matmul L (replicate (length m.(x)) c)
              = Ok (replicate (length m.(x)) C0).
Proof.
  intros Hwf.
  destruct (plain_operators m E Hwf)
    as (G & D & L & mask & _ & _ & HL & _ & _ & HsL & _ & _ & HtL).
  exists L, mask. split; [done|]. unfold matmul. rewrite HsL. cbn [fst snd].
  rewrite decide_True by apply length_replicate. f_equal.
  replace (replicate (length (x m)) C0)
    with ((λ _ : nat, C0) <$> seq 0 (length (x m)))
    by (by rewrite <- replicate_tab, length_seq).
  apply list_fmap_ext. intros _ s _.
  rewrite (matvec_blocks4 L _ _ _ _ _ _ _ HtL).
  apply Csum_all_zero. intros k Hk.
  destruct (endpoints_in_range m k Hwf Hk) as [H0 H1].
  destruct (endpoints_ok m k Hwf Hk) as [Hs0 Hs1].
  pose proof (nonzero_of_pos _ (area_pos m _ Hwf Hs0)) as Ha0.
  pose proof (nonzero_of_pos _ (area_pos m _ Hwf Hs1)) as Ha1.
  unfold matvec_term, lap_forward, lap_backward, lap_diag0, lap_diag1, link_weight.
  cbn [fst snd]. rewrite !vec_get_replicate by done.
  rewrite !Cdiv_real by done.
  destruct (decide (endpoint0 m k = Z.of_nat s)),
           (decide (endpoint1 m k = Z.of_nat s));
    apply C_ext; simpl; field; done.
Qed.

(** X1: without link exponents and fixed sites the three builders compose:
    applying the gradient matrix to a site vector and the divergence matrix
    to the result gives what the Laplacian matrix gives on the site vector,
    for every site vector of one component per site. *)
Theorem divergence_of_gradient (m : Mesh) (E : R) :
  wf_mesh m →
  ∃ G D L mask,
    build_gradient m PyNone = Ok G
    ∧ build_divergence m = Ok D
    ∧ build_laplacian m PyNone PyNone None E = Ok (L, mask)
    ∧ ∀ φ : list C,
        length φ = length m.(x) →
        ∃ g, matmul G φ = Ok g ∧ matmul D g = matmul L φ ∧ is_Ok (matmul L φ).
Proof.
  intros Hwf.
  destruct (plain_operators m E Hwf)
    as (G & D & L & mask & HG & HD & HL & HsG & HsD & HsL & HtG & HtD & HtL).
  exists G, D, L, mask. repeat (split; [done|]).
  intros φ Hφ. unfold matmul. rewrite HsG, HsD, HsL. cbn [fst snd].
  rewrite !(decide_True (P := length φ = length (x m))) by done.
  eexists. split; [done|]. rewrite length_fmap, length_seq.
  rewrite decide_True by done. split; [|apply is_Ok_Ok]. f_equal.
  apply list_fmap_ext. intros _ s _.
  rewrite (matvec_blocks2 D _ _ _ _ _ HtD).
  rewrite (matvec_blocks4 L _ _ _ _ _ _ _ HtL).
  apply Csum_ext. intros k Hk.
  destruct (endpoints_ok m k Hwf Hk) as [Hs0 Hs1].
  pose proof (nonzero_of_pos _ (area_pos m _ Hwf Hs0)) as Ha0.
  pose proof (nonzero_of_pos _ (area_pos m _ Hwf Hs1)) as Ha1.
  pose proof (nonzero_of_pos _ (edge_length_pos m k Hwf Hk)) as Hlen.
  unfold matvec_term, lap_forward, lap_backward, lap_diag0, lap_diag1, link_weight.
  cbn [fst snd]. rewrite vec_get_of_nat.
  rewrite (item_tab C0 _ _ k) by (by apply edge_ids_lt).
  rewrite (plain_gradient_row G m φ k HtG Hk).
  rewrite !Cdiv_real by done.
  unfold edge_weight, dual_length, edge_length in *.
  destruct (decide (endpoint0 m k = Z.of_nat s)),
           (decide (endpoint1 m k = Z.of_nat s));
    apply C_ext; simpl; field; done.
Qed.

Lemma Csum_pick_site (n : nat) (i : Z) (c : C) :
  (0 ≤ i < Z.of_nat n)%Z →
  Csum ((λ s, if decide (i = Z.of_nat s) then c else C0) <$> seq 0 n) = c.
Proof.
  intros Hi.
  rewrite (Csum_ext _ (λ s, if decide (Z.of_nat s = i) then c else C0)).
  - rewrite (Csum_select (λ _, c)). by rewrite decide_True.
  - intros s _. destruct (decide (i = Z.of_nat s)) as [->|Hne].
    + by rewrite decide_True.
    + by rewrite decide_False.
Qed.

(** X4: the divergence matrix conserves: for every edge vector, the
    divergences at the sites, each weighted by the dual area of its site,
    add up to zero. *)
Theorem divergence_conserves (m : Mesh) :
  wf_mesh m →
  ∃ D, build_divergence m = Ok D
       ∧ ∀ v : list C,
           length v = length m.(edge_mesh).(edges) →
           Csum ((λ s, Cmult (RtoC (area m (Z.of_nat s)))
                         (matvec D v (Z.of_nat s)))
                   <$> seq 0 (length m.(x)))
           = C0.
Proof.
  intros Hwf.
  destruct (plain_operators m 1%R Hwf)
    as (G & D & L & mask & _ & HD & _ & _ & _ & _ & _ & HtD & _).
  exists D. split; [done|]. intros v _.
  rewrite (Csum_ext _
    (λ s, Csum ((λ k,
       Cplus (if decide (endpoint0 m k = Z.of_nat s)
              then Cmult (RtoC (dual_length m k)) (vec_get v (Z.of_nat k)) else C0)
             (if decide (endpoint1 m k = Z.of_nat s)
              then Cmult (RtoC (- dual_length m k)) (vec_get v (Z.of_nat k)) else C0))
       <$> edge_ids m))); cycle 1.
  { intros s _. rewrite (matvec_blocks2 D _ _ _ _ _ HtD), <- Csum_scale.
    apply Csum_ext. intros k Hk.
    destruct (endpoints_ok m k Hwf Hk) as [Hs0 Hs1].
    pose proof (nonzero_of_pos _ (area_pos m _ Hwf Hs0)) as Ha0.
    pose proof (nonzero_of_pos _ (area_pos m _ Hwf Hs1)) as Ha1.
    unfold matvec_term. cbn [fst snd].
    destruct (decide (endpoint0 m k = Z.of_nat s)) as [e0|],
             (decide (endpoint1 m k = Z.of_nat s)) as [e1|];
      try rewrite e0 in Ha0 |- *; try rewrite e1 in Ha1 |- *;
      apply C_ext; simpl; field; done. }
  rewrite Csum_swap. apply Csum_all_zero. intros k Hk.
  destruct (endpoints_in_range m k Hwf Hk) as [H0 H1].
  rewrite Csum_plus, !Csum_pick_site by done.
  apply C_ext; simpl; ring.
Qed.

(** X5: entry by entry, the divergence matrix weighted by the dual area of
    the row's site is the negated transpose of the gradient matrix (built
    without link exponents) weighted by the dual length times the length of
    the row's edge. *)
Theorem divergence_adjoint_of_gradient (m : Mesh) :
  wf_mesh m →
  ∃ G D, build_gradient m PyNone = Ok G
         ∧ build_divergence m = Ok D
         ∧ ∀ (s : Z) (k : nat),
             site_ok m s → k < length m.(edge_mesh).(edges) →
             Cmult (RtoC (area m s)) (entry D s (Z.of_nat k))
             = Copp (Cmult (RtoC (dual_length m k * edge_length m k))
                       (entry G (Z.of_nat k) s)).
Proof.
  intros Hwf.
  destruct (plain_operators m 1%R Hwf)
    as (G & D & L & mask & HG & HD & _ & _ & _ & _ & HtG & HtD & _).
  exists G, D. repeat (split; [done|]). intros s k Hs Hk.
  assert (Hkin : k ∈ edge_ids m) by (apply elem_of_seq; lia).
  pose proof (nonzero_of_pos _ (area_pos m _ Hwf Hs)) as Ha.
  pose proof (nonzero_of_pos _ (edge_length_pos m k Hwf Hkin)) as Hlen.
  rewrite (entry_app _ _ _ _ _ HtD), (entry_app _ _ _ _ _ HtG).
  unfold edge_ids. rewrite <- !list_fmap_compose.
  rewrite !(Csum_entry_col _ _ k s) by done.
  rewrite !(Csum_entry_row _ _ k s) by done.
  destruct (decide (k < length (edges (edge_mesh m)))) as [_|]; [|lia].
  cbn [fst snd].
  destruct (decide (endpoint0 m k = s)) as [e0|],
           (decide (endpoint1 m k = s)) as [e1|];
    try rewrite e0; try rewrite e1; apply C_ext; simpl; field; done.
Qed.

(** ** More on the Neumann boundary operator *)

Lemma boundary_length_pos m k :
  wf_mesh m → k ∈ boundary_ids m → (0 < boundary_length m k)%R.
Proof.
  intros Hwf Hk. pose proof (boundary_index_ok m k Hwf Hk) as Hi.
  unfold boundary_length, itemZ.
  pose proof (wf_lengths_pos m Hwf) as HF. rewrite Forall_lookup in HF.
  destruct (lookup_lt_is_Some_2 m.(edge_mesh).(edge_lengths)
              (Z.to_nat (item 0%Z m.(edge_mesh).(boundary_edge_indices) k)))
    as [v Hv].
  { rewrite (wf_lengths_len m Hwf). lia. }
  rewrite (nth_lookup_Some _ _ _ _ Hv). by apply (HF _ _ Hv).
Qed.

(** X12: without fixed sites, every column of the Neumann boundary matrix,
    weighted by the dual areas of the sites, adds up to the length of its
    boundary edge. *)
Theorem neumann_conserves_flux (m : Mesh) :
  wf_mesh m →
  ∃ Nm, build_neumann_boundary_laplacian m PyNone = Ok Nm
        ∧ ∀ k : nat,
            k < length m.(edge_mesh).(boundary_edge_indices) →
            Csum ((λ s, Cmult (RtoC (area m (Z.of_nat s)))
                          (entry Nm (Z.of_nat s) (Z.of_nat k)))
                    <$> seq 0 (length m.(x)))
            = RtoC (boundary_length m k).
Proof.
  intros Hwf.
  destruct (build_neumann_ok m PyNone Hwf I) as (Nm & HN & _ & Ht).
  simpl in Ht. rewrite filter_not_in_nil in Ht.
  exists Nm. split; [done|]. intros k Hk.
  assert (Hkin : k ∈ boundary_ids m) by (apply elem_of_seq; lia).
  destruct (boundary_endpoints_ok m k Hwf Hkin) as [Hs0 Hs1].
  pose proof (nonzero_of_pos _ (area_pos m _ Hwf Hs0)) as Ha0.
  pose proof (nonzero_of_pos _ (area_pos m _ Hwf Hs1)) as Ha1.
  rewrite (Csum_ext _
    (λ s, Cplus (if decide ((boundary_edge m k).1 = Z.of_nat s)
                 then RtoC (boundary_length m k / 2) else C0)
                (if decide ((boundary_edge m k).2 = Z.of_nat s)
                 then RtoC (boundary_length m k / 2) else C0))); cycle 1.
  { intros s _. unfold neumann_general in Ht.
    rewrite (entry_app _ _ _ _ _ Ht). unfold boundary_ids.
    rewrite <- !list_fmap_compose.
    rewrite !(Csum_entry_col _ _ k (Z.of_nat s)) by done.
    destruct (decide (k < length (boundary_edge_indices (edge_mesh m))))
      as [_|]; [|lia].
    unfold neumann_term0, neumann_term1. cbn [fst snd].
    destruct (decide ((boundary_edge m k).1 = Z.of_nat s)) as [e0|],
             (decide ((boundary_edge m k).2 = Z.of_nat s)) as [e1|];
      try rewrite e0 in Ha0 |- *; try rewrite e1 in Ha1 |- *;
      apply C_ext; simpl; field; done. }
  rewrite Csum_plus, !Csum_pick_site by done.
  apply C_ext; simpl; field.
Qed.

Lemma mapM_normalize_wrap n (idx : list Z) :
  Forall (λ i, (- Z.of_nat n ≤ i < Z.of_nat n)%Z) idx →
  mapM (normalize_index n) idx = Ok (wrap_index n <$> idx).
Proof.
  induction 1 as [|i idx Hi _ IH]; [done|].
  change (mapM (normalize_index n) (i :: idx))
    with (normalize_index n i ≫= λ y, mapM (normalize_index n) idx ≫= λ r, Ok (y :: r)).
  rewrite IH, fmap_cons. unfold normalize_index. fold (wrap_index n i).
  unfold wrap_index at 1. by rewrite (decide_True (P := (0 ≤ _ < _)%Z))
    by (unfold wrap_index; case_decide; lia).
Qed.


(** The matrix before the fixed rows are zeroed. *)
Lemma neumann_before_zeroing m fs :
  wf_mesh m →
  ∃ Nm, build_neumann_boundary_laplacian m PyNone = Ok Nm
        ∧ shape Nm = (length m.(x), length m.(edge_mesh).(boundary_edge_indices))
        ∧ build_neumann_boundary_laplacian m (PyArray fs) = lil_zero_rows Nm fs.
Proof.
  intros Hwf.
  destruct (build_neumann_ok m PyNone Hwf I) as (Nm & HN & Hs & _).
  exists Nm. split; [done|]. split; [done|].
  unfold build_neumann_boundary_laplacian in *.
  repeat match type of HN with
         | (?r ≫= _) = _ => destruct r; cbn [mbind result_bind] in HN |- *; [|done]
         end.
  by injection HN as ->.
Qed.

(** X13: the Neumann builder accepts fixed sites in [-N, N): it returns a
    matrix, and a negative index counts from the last site, so the result
    is that of the call with every negative index raised by [N]. *)
Theorem neumann_negative_index_wraps (m : Mesh) (fs : list Z) :
  wf_mesh m →
  Forall (λ i, (- Z.of_nat (length m.(x)) ≤ i < Z.of_nat (length m.(x)))%Z) fs →
  is_Ok (build_neumann_boundary_laplacian m (PyArray fs))
  ∧ build_neumann_boundary_laplacian m (PyArray fs)
    = build_neumann_boundary_laplacian m
        (PyArray (wrap_index (length m.(x)) <$> fs)).
Proof.
  intros Hwf Hfs.
  destruct (neumann_before_zeroing m fs Hwf) as (Nm & HN & Hs & ->).
  destruct (neumann_before_zeroing m (wrap_index (length m.(x)) <$> fs) Hwf)
    as (Nm' & HN' & _ & ->).
  assert (Nm' = Nm) as -> by congruence.
  unfold lil_zero_rows. rewrite Hs. cbn [fst].
  rewrite (mapM_normalize_wrap _ _ Hfs).
  rewrite mapM_normalize_ok; cycle 1.
  { apply Forall_fmap. eapply Forall_impl; [apply Hfs|].
    intros i Hi. unfold compose, wrap_index. simpl in Hi |- *.
    case_decide; lia. }
  split; [apply is_Ok_Ok|done].
Qed.


(** ** More on the Laplacian *)




(** X8: fixing sites changes only their own rows: every row of a site that
    is not fixed is the row of the Laplacian built without fixed sites. *)
Theorem laplacian_free_rows_kept (m : Mesh) (le : pyarg (list (R * R)))
    (fs : list Z) (E E' : R) :
  wf_mesh m → wf_link_exponents m le → Forall (site_ok m) fs →
  ∃ L mask L0 mask0,
    build_laplacian m le (PyArray fs) None E = Ok (L, mask)
    ∧ build_laplacian m le PyNone None E' = Ok (L0, mask0)
    ∧ ∀ i j, i ∉ fs → entry L i j = entry L0 i j.
Proof.
  intros Hwf Hle Hfs.
  destruct (build_laplacian_ok m le (PyArray fs) None E Hwf Hle Hfs I)
    as (L & HL & _ & _ & Ht).
  destruct (build_laplacian_ok m le PyNone None E' Hwf Hle I I)
    as (L0 & HL0 & _ & _ & Ht0).
  rewrite free_mask_filter in Ht, Ht0. simpl in Ht, Ht0.
  rewrite filter_not_in_nil, app_nil_r in Ht0.
  eexists _, _, _, _. split; [done|]. split; [done|].
  intros i j Hi. unfold entry at 2. rewrite Ht0.
  rewrite (entry_app _ _ _ _ _ Ht).
  rewrite Csum_filter; cycle 1.
  { intros t _ Hrow. unfold entry_term. rewrite decide_False; [done|].
    intros [H1 _]. apply Hrow. by rewrite H1. }
  rewrite (Csum_all_zero _ (fixed_diagonal fs E)); [apply Cplus_0_r|].
  intros t Ht'. unfold fixed_diagonal in Ht'.
  apply list_elem_of_fmap in Ht' as (f & -> & Hf).
  unfold entry_term. cbn [fst snd]. rewrite decide_False; [done|].
  intros [-> _]. done.
Qed.

Lemma Csum_count (c : R) (f : Z) (l : list Z) :
  Csum ((λ g, if decide (g = f) then RtoC c else C0) <$> l)
  = RtoC (INR (length (filter (λ g, g = f) l)) * c).
Proof.
  induction l as [|g l IH]; csimpl.
  - apply C_ext; simpl; ring.
  - rewrite IH, filter_cons. destruct (decide (g = f)).
    + cbn [length]. rewrite S_INR. apply C_ext; simpl; ring.
    + apply C_ext; simpl; ring.
Qed.

(** X9: the diagonal entry of a fixed site is the eigenvalue times the
    number of times the site is listed, because the sparse constructor adds
    duplicates: a site listed twice gets twice the eigenvalue. *)
Theorem laplacian_repeated_fixed_site (m : Mesh) (le : pyarg (list (R * R)))
    (fs : list Z) (E : R) :
  wf_mesh m → wf_link_exponents m le → Forall (site_ok m) fs →
  ∃ L mask,
    build_laplacian m le (PyArray fs) None E = Ok (L, mask)
    ∧ ∀ f, f ∈ fs →
           entry L f f = RtoC (INR (length (filter (λ g, g = f) fs)) * E).
Proof.
  intros Hwf Hle Hfs.
  destruct (build_laplacian_ok m le (PyArray fs) None E Hwf Hle Hfs I)
    as (L & HL & _ & _ & Ht).
  rewrite free_mask_filter in Ht. simpl in Ht.
  eexists _, _. split; [done|]. intros f Hf.
  rewrite (entry_app _ _ _ _ _ Ht).
  rewrite Csum_all_zero; cycle 1.
  { intros t Ht'. apply list_elem_of_filter in Ht' as [Hrow _].
    unfold entry_term. rewrite decide_False; [done|].
    intros [H1 _]. by rewrite H1 in Hrow. }
  rewrite Cplus_0_l. unfold fixed_diagonal.
  rewrite <- list_fmap_compose, <- Csum_count.
  apply Csum_ext. intros g _. unfold compose, entry_term. simpl.
  destruct (decide (g = f ∧ g = f)) as [[? _]|Hn]; destruct (decide (g = f));
    try done.
  by destruct Hn.
Qed.

Lemma build_laplacian_mask_eq m le fs E :
  build_laplacian m le fs (Some (free_mask m fs None)) E
  = build_laplacian m le fs None E.
Proof.
  unfold build_laplacian. destruct fs as [|a|].
  - change (free_mask m PyNone None) with (free_mask m (PyArray []) None).
    by rewrite laplacian_free_triplets_mask.
  - by rewrite laplacian_free_triplets_mask.
  - by rewrite laplacian_free_triplets_mask.
Qed.

Lemma build_laplacian_returns_free_mask m le fs E L mask :
  build_laplacian m le fs None E = Ok (L, mask) → mask = free_mask m fs None.
Proof.
  intros HL. rewrite <- build_laplacian_mask_eq in HL.
  unfold build_laplacian in HL.
  destruct (laplacian_free_triplets _ _ _ _) as [[[[rows cols] vals] mk]|] eqn:Hgen;
    simpl in HL; [|done].
  assert (mk = free_mask m fs None) as ->.
  { unfold laplacian_free_triplets in Hgen.
    repeat match type of Hgen with
           | (?r ≫= _) = _ => destruct r; simpl in Hgen; [|done]
           end.
    by inversion Hgen. }
  destruct fs as [|a|]; simpl in HL; [| |done].
  - destruct (coo_matrix _ _ _ _); simpl in HL; by inversion HL.
  - destruct (coo_matrix _ _ _ _); simpl in HL; by inversion HL.
Qed.

(** X11: the mask returned by one call depends on the mesh and the fixed
    sites only: passed as [free_rows] to a later call with other link
    exponents and another eigenvalue, it gives what that call computes
    without a mask. *)
Theorem laplacian_mask_reuse (m : Mesh) (le le' : pyarg (list (R * R)))
    (fs : pyarg (list Z)) (E E' : R) (L : spmatrix) (mask : list bool) :
  build_laplacian m le fs None E = Ok (L, mask) →
  build_laplacian m le' fs (Some mask) E' = build_laplacian m le' fs None E'.
Proof.
  intros HL. rewrite (build_laplacian_returns_free_mask _ _ _ _ _ _ HL).
  apply build_laplacian_mask_eq.
Qed.

(** ** Link weights *)

Lemma phase_unit (s : R) : Cnorm2 (phase s) = 1%R.
Proof.
  unfold phase, Cnorm2. simpl.
  replace (- 0 * s - - (1) * 0)%R with 0%R by ring.
  rewrite exp_0.
  replace (- 0 * 0 + - (1) * s)%R with (- s)%R by ring.
  rewrite cos_neg, sin_neg.
  pose proof (sin2_cos2 s) as H. unfold Rsqr in H. lra.
Qed.

(** X6: every link-variable weight that [build_gradient] and
    [build_laplacian] compute, with or without link exponents, has modulus
    one: multiplied by its conjugate it gives 1. *)
Theorem link_weights_unit_modulus (em : EdgeMesh)
    (le : pyarg (list (R * R))) (n : nat) (lv : ndarray) :
  link_weights em le n = Ok lv →
  Forall (λ z, Cnorm2 z = 1%R ∧ Cmult z (Cconj z) = C1) (as_complex lv).
Proof.
  assert (Hunit : ∀ z, Cnorm2 z = 1%R → Cnorm2 z = 1%R ∧ Cmult z (Cconj z) = C1).
  { intros z Hz. split; [done|]. unfold Cnorm2 in Hz.
    apply C_ext; simpl; lra. }
  destruct le as [|a|]; simpl.
  - intros [= <-]. simpl. apply Forall_fmap, Forall_forall.
    intros r Hr%elem_of_replicate. destruct Hr as [-> _].
    apply Hunit. unfold Cnorm2. simpl. lra.
  - destruct (broadcast dot2 a (directions em)) as [s|]; [|done].
    intros [= <-]. simpl. apply Forall_fmap, Forall_forall.
    intros r _. apply Hunit, phase_unit.
  - by destruct (directions em).
Qed.

(** ** Configuring a builder *)

Lemma build_unfold (σ : store) (self : loc) (b : MatrixBuilder) (m : Mesh)
    (t : MatrixType) (fr : option (list bool)) :
  σ.(builders) !! self = Some b → σ.(meshes) !! b.(mesh) = Some m →
  build self (Member t) fr σ
  = match t with
    | LAPLACIAN =>
        le ← load σ.(float_arrays) b.(link_exponents);
        fs ← load σ.(int_arrays) b.(fixed_sites);
        '(laplacian, mask) ←
          build_laplacian m le fs fr b.(fixed_sites_eigenvalue);
        Ok (RetTuple laplacian mask)
    | NEUMANN_BOUNDARY_LAPLACIAN =>
        fs ← load σ.(int_arrays) b.(fixed_sites);
        RetMatrix <$> build_neumann_boundary_laplacian m fs
    | DIVERGENCE => RetMatrix <$> build_divergence m
    | GRADIENT =>
        le ← load σ.(float_arrays) b.(link_exponents);
        RetMatrix <$> build_gradient m le
    end.
Proof.
  intros Hb Hm. unfold build, find. rewrite Hb. cbn [mbind result_bind].
  destruct t; by rewrite Hm.
Qed.

Lemma load_alloc {A} (h : gmap loc (ndobject A)) (a : A) :
  load (alloc h (NdArray a)).2 (Some (alloc h (NdArray a)).1) = Ok (PyArray a).
Proof. unfold load, find, alloc. simpl. by rewrite lookup_insert_eq. Qed.

Lemma load_alloc_other {A} (h : gmap loc (ndobject A)) (o : ndobject A)
    (r : option loc) (v : pyarg A) :
  load h r = Ok v → load (alloc h o).2 r = Ok v.
Proof.
  destruct r as [l|]; [|done]. unfold load, find, alloc. simpl.
  destruct (h !! l) as [o'|] eqn:Hl; [|done].
  intros Hv. rewrite lookup_insert_ne; [by rewrite Hl|].
  intros <-. pose proof (is_fresh (dom h)) as Hf.
  apply Hf, elem_of_dom. by eexists.
Qed.

(** X16: [with_dirichlet_boundary] called with a list returns the builder
    itself; from then on the Neumann and Laplacian kinds are built with
    these fixed sites and this eigenvalue, whatever was set before, and the
    gradient and divergence kinds are built as before. *)
Theorem with_dirichlet_boundary_sets (σ σ' : store) (self r : loc)
    (b : MatrixBuilder) (m : Mesh) (sites : list Z) (E : R) :
  σ.(builders) !! self = Some b →
  σ.(meshes) !! b.(mesh) = Some m →
  with_dirichlet_boundary self (PyList sites) E σ = Ok (r, σ') →
  r = self
  ∧ (∀ fr, build self (Member NEUMANN_BOUNDARY_LAPLACIAN) fr σ'
           = RetMatrix <$> build_neumann_boundary_laplacian m (PyArray sites))
  ∧ (∀ fr le,
       load σ.(float_arrays) b.(link_exponents) = Ok le →
       build self (Member LAPLACIAN) fr σ'
       = (λ p, RetTuple p.1 p.2) <$> build_laplacian m le (PyArray sites) fr E)
  ∧ (∀ fr, build self (Member GRADIENT) fr σ'
           = build self (Member GRADIENT) fr σ)
  ∧ (∀ fr, build self (Member DIVERGENCE) fr σ'
           = build self (Member DIVERGENCE) fr σ).
Proof.
  intros Hb Hm Hset. unfold with_dirichlet_boundary, find in Hset.
  rewrite Hb in Hset. cbn [mbind result_bind np_asarray] in Hset.
  destruct (alloc (int_arrays σ) (NdArray sites)) as [a ints] eqn:Ha.
  injection Hset as <- <-. split; [done|].
  set (b' := {| mesh := mesh b; fixed_sites := Some a;
                fixed_sites_eigenvalue := E;
                link_exponents := link_exponents b |}).
  assert (Hb' : ∀ t fr,
    build self (Member t) fr
      (Store (meshes σ) ints (float_arrays σ) (<[self:=b']> (builders σ)))
    = _) by (intros t fr; apply (build_unfold _ self b' m t fr);
             [apply lookup_insert_eq|done]).
  assert (Hload : load ints (Some a) = Ok (PyArray sites)).
  { pose proof (load_alloc (int_arrays σ) sites) as H. by rewrite Ha in H. }
  repeat split.
  - intros fr. rewrite Hb'. cbn [int_arrays fixed_sites b']. by rewrite Hload.
  - intros fr le Hle. rewrite Hb'.
    cbn [int_arrays float_arrays fixed_sites link_exponents
         fixed_sites_eigenvalue b'].
    rewrite Hle, Hload. cbn [mbind result_bind].
    by destruct (build_laplacian m le (PyArray sites) fr E) as [[L mask]|].
  - intros fr. by rewrite Hb', (build_unfold σ self b m GRADIENT fr Hb Hm).
  - intros fr. by rewrite Hb', (build_unfold σ self b m DIVERGENCE fr Hb Hm).
Qed.

(** X17: [with_link_exponents] called with a list returns the builder
    itself; from then on the gradient and Laplacian kinds are built with
    these link exponents, whatever was set before, and the Neumann and
    divergence kinds are built as before. *)
Theorem with_link_exponents_sets (σ σ' : store) (self r : loc)
    (b : MatrixBuilder) (m : Mesh) (exponents : list (R * R)) :
  σ.(builders) !! self = Some b →
  σ.(meshes) !! b.(mesh) = Some m →
  with_link_exponents self (PyList exponents) σ = Ok (r, σ') →
  r = self
  ∧ (∀ fr, build self (Member GRADIENT) fr σ'
           = RetMatrix <$> build_gradient m (PyArray exponents))
  ∧ (∀ fr fs,
       load σ.(int_arrays) b.(fixed_sites) = Ok fs →
       build self (Member LAPLACIAN) fr σ'
       = (λ p, RetTuple p.1 p.2)
           <$> build_laplacian m (PyArray exponents) fs fr
                 b.(fixed_sites_eigenvalue))
  ∧ (∀ fr, build self (Member NEUMANN_BOUNDARY_LAPLACIAN) fr σ'
           = build self (Member NEUMANN_BOUNDARY_LAPLACIAN) fr σ)
  ∧ (∀ fr, build self (Member DIVERGENCE) fr σ'
           = build self (Member DIVERGENCE) fr σ).
Proof.
  intros Hb Hm Hset. unfold with_link_exponents, find in Hset.
  rewrite Hb in Hset. cbn [mbind result_bind np_asarray] in Hset.
  destruct (alloc (float_arrays σ) (NdArray exponents)) as [a floats] eqn:Ha.
  injection Hset as <- <-. split; [done|].
  set (b' := {| mesh := mesh b; fixed_sites := fixed_sites b;
                fixed_sites_eigenvalue := fixed_sites_eigenvalue b;
                link_exponents := Some a |}).
  assert (Hb' : ∀ t fr,
    build self (Member t) fr
      (Store (meshes σ) (int_arrays σ) floats (<[self:=b']> (builders σ)))
    = _) by (intros t fr; apply (build_unfold _ self b' m t fr);
             [apply lookup_insert_eq|done]).
  assert (Hload : load floats (Some a) = Ok (PyArray exponents)).
  { pose proof (load_alloc (float_arrays σ) exponents) as H. by rewrite Ha in H. }
  repeat split.
  - intros fr. rewrite Hb'. cbn [float_arrays link_exponents b']. by rewrite Hload.
  - intros fr fs Hfs. rewrite Hb'.
    cbn [int_arrays float_arrays fixed_sites link_exponents
         fixed_sites_eigenvalue b'].
    rewrite Hfs, Hload. cbn [mbind result_bind].
    by destruct (build_laplacian m (PyArray exponents) fs fr
                   (fixed_sites_eigenvalue b)) as [[L mask]|].
  - intros fr.
    by rewrite Hb', (build_unfold σ self b m NEUMANN_BOUNDARY_LAPLACIAN fr Hb Hm).
  - intros fr. by rewrite Hb', (build_unfold σ self b m DIVERGENCE fr Hb Hm).
Qed.

(** X15: a builder just constructed is a new object and builds, for each
    of the four kinds, the operator of its mesh without link exponents and
    without fixed sites, the Laplacian with eigenvalue 1. *)
Theorem new_builder_builds_plain_operators (σ σ' : store) (ml self : loc)
    (m : Mesh) :
  σ.(meshes) !! ml = Some m →
  MatrixBuilder_init ml σ = Ok (self, σ') →
  σ.(builders) !! self = None
  ∧ (∀ fr, build self (Member GRADIENT) fr σ'
           = RetMatrix <$> build_gradient m PyNone)
  ∧ (∀ fr, build self (Member DIVERGENCE) fr σ'
           = RetMatrix <$> build_divergence m)
  ∧ (∀ fr, build self (Member NEUMANN_BOUNDARY_LAPLACIAN) fr σ'
           = RetMatrix <$> build_neumann_boundary_laplacian m PyNone)
  ∧ (∀ fr, build self (Member LAPLACIAN) fr σ'
           = (λ p, RetTuple p.1 p.2) <$> build_laplacian m PyNone PyNone fr 1%R).
Proof.
  intros Hm Hinit. unfold MatrixBuilder_init, alloc in Hinit.
  injection Hinit as <- <-.
  split; [apply not_elem_of_dom, is_fresh|].
  set (b := {| mesh := ml; fixed_sites := None; fixed_sites_eigenvalue := 1%R;
               link_exponents := None |}).
  assert (Hb : ∀ t fr,
    build (fresh (dom (builders σ))) (Member t) fr
      (Store (meshes σ) (int_arrays σ) (float_arrays σ)
         (<[fresh (dom (builders σ)) := b]> (builders σ)))
    = _) by (intros t fr; apply (build_unfold _ _ b m t fr);
             [apply lookup_insert_eq|done]).
  repeat split; intros fr; rewrite Hb; try done.
  cbn [load link_exponents fixed_sites fixed_sites_eigenvalue b mbind result_bind].
  by destruct (build_laplacian m PyNone PyNone fr 1) as [[L mask]|].
Qed.

(** X18: [with_dirichlet_boundary] called with an ndarray keeps that very
    array ([np.asarray] does not copy it): when the caller later writes into
    the array, the builder builds with the changed fixed sites. *)
Theorem with_dirichlet_boundary_aliases (σ : store) (self r : loc)
    (b : MatrixBuilder) (m : Mesh) (a : list Z) (E : R) (i : nat) (v : Z) :
  σ.(builders) !! self = Some b →
  σ.(meshes) !! b.(mesh) = Some m →
  σ.(int_arrays) !! r = Some (NdArray a) →
  i < length a →
  ∃ σ1 ints,
    with_dirichlet_boundary self (NdArrayRef r) E σ = Ok (self, σ1)
    ∧ ndarray_setitem σ1.(int_arrays) (Some r) i v = Ok ints
    ∧ ∀ fr,
        build self (Member NEUMANN_BOUNDARY_LAPLACIAN) fr σ1
        = RetMatrix <$> build_neumann_boundary_laplacian m (PyArray a)
        ∧ build self (Member NEUMANN_BOUNDARY_LAPLACIAN) fr
            (Store σ1.(meshes) ints σ1.(float_arrays) σ1.(builders))
          = RetMatrix
              <$> build_neumann_boundary_laplacian m (PyArray (<[i := v]> a)).
Proof.
  intros Hb Hm Hr Hi.
  unfold with_dirichlet_boundary, find. rewrite Hb.
  cbn [mbind result_bind np_asarray].
  eexists _, _. split; [reflexivity|].
  cbn [int_arrays meshes float_arrays builders].
  unfold ndarray_setitem, find. rewrite Hr. cbn [mbind result_bind].
  rewrite decide_True by done. split; [reflexivity|].
  intros fr. split.
  - erewrite build_unfold; [|apply lookup_insert_eq|exact Hm].
    cbn [int_arrays fixed_sites]. unfold load, find. by rewrite Hr.
  - erewrite build_unfold; [|apply lookup_insert_eq|exact Hm].
    cbn [int_arrays fixed_sites]. unfold load, find.
    by rewrite lookup_insert_eq.
Qed.


Lemma np_copy_load {A} (h h' : gmap loc (ndobject A)) (r r' : option loc)
    (l : loc) (v : pyarg A) :
  np_copy h r = Ok (l, h') → load h r' = Ok v → load h' r' = Ok v.
Proof.
  intros Hc Hv. unfold np_copy in Hc. destruct r as [l0|].
  - destruct (find h l0) as [o|]; cbn [mbind result_bind] in Hc; [|done].
    injection Hc as <- <-. by apply load_alloc_other.
  - injection Hc as <- <-. by apply load_alloc_other.
Qed.

(** X22: [clone] returns a new builder and leaves the others alone: what
    any builder built before the call, the original included, it builds
    after it. *)
Theorem clone_keeps_existing_builders (σ σ1 : store) (self c s : loc)
    (matrix_type : pyvalue) (free_rows : option (list bool))
    (out : build_output) :
  clone self σ = Ok (c, σ1) →
  build s matrix_type free_rows σ = Ok out →
  c ≠ s ∧ build s matrix_type free_rows σ1 = Ok out.
Proof.
  intros Hclone Hout. unfold clone, find in Hclone.
  destruct (builders σ !! self) as [b|] eqn:Hb; [|done].
  unfold MatrixBuilder_init, alloc in Hclone.
  cbn [mbind result_bind int_arrays float_arrays builders meshes] in Hclone.
  destruct (np_copy (int_arrays σ) (fixed_sites b)) as [[fs ints]|] eqn:Hcfs;
    [|done].
  cbn [mbind result_bind] in Hclone.
  destruct (np_copy (float_arrays σ) (link_exponents b)) as [[le floats]|] eqn:Hcle;
    [|done].
  cbn [mbind result_bind] in Hclone. injection Hclone as <- <-.
  unfold build, find in Hout |- *.
  destruct (builders σ !! s) as [bs|] eqn:Hs; [|done].
  assert (Hne : fresh (dom (builders σ)) ≠ s).
  { intros Heq. pose proof (is_fresh (dom (builders σ))) as Hf.
    rewrite Heq in Hf. apply Hf, elem_of_dom. by eexists. }
  split; [done|].
  cbn [builders meshes int_arrays float_arrays].
  rewrite !lookup_insert_ne, Hs by done.
  cbn [mbind result_bind] in Hout |- *.
  destruct matrix_type as [[]|]; [| | | |done].
  - destruct (meshes σ !! mesh bs) as [m|]; [|done].
    cbn [mbind result_bind] in Hout |- *.
    destruct (load (float_arrays σ) (link_exponents bs)) as [lev|] eqn:Hle; [|done].
    cbn [mbind result_bind] in Hout |- *.
    destruct (load (int_arrays σ) (fixed_sites bs)) as [fsv|] eqn:Hfs; [|done].
    by rewrite (np_copy_load _ _ _ _ _ _ Hcle Hle),
               (np_copy_load _ _ _ _ _ _ Hcfs Hfs).
  - destruct (meshes σ !! mesh bs) as [m|]; [|done].
    cbn [mbind result_bind] in Hout |- *.
    destruct (load (int_arrays σ) (fixed_sites bs)) as [fsv|] eqn:Hfs; [|done].
    by rewrite (np_copy_load _ _ _ _ _ _ Hcfs Hfs).
  - done.
  - destruct (meshes σ !! mesh bs) as [m|]; [|done].
    cbn [mbind result_bind] in Hout |- *.
    destruct (load (float_arrays σ) (link_exponents bs)) as [lev|] eqn:Hle; [|done].
    by rewrite (np_copy_load _ _ _ _ _ _ Hcle Hle).
Qed.

(** ** The state line of the viewer *)



Lemma state_loop_filter (f : R → string) (items : list (string * state_value))
    (i : nat) (acc : string) :
  state_loop f items i acc
  = state_loop f (filter (λ kv, kv.1 ≠ "timestamp") items) i acc.
Proof.
  revert i acc. induction items as [|[key value] items IH]; intros i acc; [done|].
  rewrite filter_cons. cbn [state_loop fst].
  destruct (decide (key = "timestamp")) as [->|Hk].
  - destruct (decide ("timestamp" ≠ "timestamp")) as [Hne|_]; [by destruct Hne|].
    apply IH.
  - destruct (decide (key ≠ "timestamp")) as [_|Hne]; [|by destruct Hne].
    cbn [state_loop].
    destruct (decide (key = "timestamp")) as [Heq|_]; [by destruct Hk|].
    apply IH.
Qed.



(** X23: the state line never shows the [timestamp] entry, and the entry
    does not shift the line breaks: two state dictionaries that agree once
    their [timestamp] entries are removed give the same text. *)
Theorem get_state_string_skips_timestamp {h5file : Type}
    (load1 load2 : h5file → Z → list (string * state_value))
    (format_2e : R → string) (h5 : h5file) (frame max_frame : Z) :
  filter (λ kv, kv.1 ≠ "timestamp") (load1 h5 frame)
  = filter (λ kv, kv.1 ≠ "timestamp") (load2 h5 frame) →
  get_state_string load1 format_2e h5 frame max_frame
  = get_state_string load2 format_2e h5 frame max_frame.
Proof.
  intros Heq. unfold get_state_string.
  by rewrite (state_loop_filter _ (load1 h5 frame)),
             (state_loop_filter _ (load2 h5 frame)), Heq.
Qed.



(** ** Where the code departs from the claims *)

Lemma wf_strip_mesh : wf_mesh strip_mesh.
Proof.
  split; simpl; try done; repeat constructor; simpl; try lia; try lra.
Qed.

Lemma wf_two_site_mesh : wf_mesh two_site_mesh.
Proof.
  split; simpl; try done; repeat constructor; simpl; try lia; try lra.
Qed.

(** C9, the failing input: a builder in its default state, built by
    [MatrixBuilder(mesh)] over a well-formed mesh, builds every operator;
    its clone raises on three of the four kinds, because the clone's fields
    hold [np.copy(None)] instead of [None]. *)
Lemma clone_of_default_builder_fails :
  wf_mesh strip_mesh
  ∧ MatrixBuilder_init 1%positive strip_store = Ok (1%positive, builder_store)
  ∧ (∀ t, is_Ok (build 1%positive (Member t) None builder_store))
  ∧ ∃ c σ',
      clone 1%positive builder_store = Ok (c, σ')
      ∧ build c (Member LAPLACIAN) None σ' = Raise TypeError
      ∧ build c (Member GRADIENT) None σ' = Raise TypeError
      ∧ build c (Member NEUMANN_BOUNDARY_LAPLACIAN) None σ' = Raise IndexError
      ∧ is_Ok (build c (Member DIVERGENCE) None σ').
Proof.
  split; [apply wf_strip_mesh|]. split; [by vm_compute|]. split.
  - intros t. destruct t; eexists; vm_compute; reflexivity.
  - eexists _, _. split; [vm_compute; reflexivity|].
    repeat split; try (vm_compute; reflexivity).
    eexists; vm_compute; reflexivity.
Qed.

(** C8 refuted as stated: fixed sites are not validated by the builder, and
    a fixed site outside the mesh makes the LAPLACIAN kind, a member of the
    enumeration, raise ValueError over a well-formed mesh. *)
Lemma build_raises_inside_enumeration :
  wf_mesh strip_mesh
  ∧ with_dirichlet_boundary 1%positive (PyList [7%Z]) 1%R builder_store
    = Ok (1%positive, out_of_range_store)
  ∧ build 1%positive (Member LAPLACIAN) None out_of_range_store
    = Raise ValueError.
Proof.
  split; [apply wf_strip_mesh|]. split; by vm_compute.
Qed.

(** C1 refuted as stated: with site 0 fixed on the two-site mesh, the
    general assembly keeps the triplet of row 1 and column 0, whose column
    is the fixed site. *)
Lemma laplacian_keeps_fixed_column :
  wf_mesh two_site_mesh
  ∧ Forall (site_ok two_site_mesh) [0%Z]
  ∧ ¬ (∀ rows cols vals mask,
         laplacian_free_triplets two_site_mesh PyNone (PyArray [0%Z]) None
         = Ok (rows, cols, vals, mask) →
         Forall (λ r, r ∉ [0%Z]) rows ∧ Forall (λ c, c ∉ [0%Z]) cols).
Proof.
  split; [apply wf_two_site_mesh|].
  split; [repeat constructor; simpl; lia|].
  intros H.
  destruct (H [1; 1]%Z [0; 1]%Z
              (F64 [1 / 1 * 1 / 2; - (1 / 1) / 2]%R)
              [false; true; false; true]) as [_ Hc].
  - vm_compute. reflexivity.
  - apply Forall_cons in Hc as [Hc _]. apply Hc. by left.
Qed.

(** C2 refuted as stated: on the two-site mesh, whose dual areas are 1 and
    2, the Laplacian built without link exponents and without fixed sites
    has [L 0 1 = 1] and [L 1 0 = 1/2]. *)
Lemma laplacian_not_symmetric :
  wf_mesh two_site_mesh
  ∧ ¬ (∀ L mask,
         build_laplacian two_site_mesh PyNone PyNone None 1%R = Ok (L, mask) →
         ∀ i j, entry L i j = entry L j i).
Proof.
  split; [apply wf_two_site_mesh|].
  intros H.
  specialize (H (SpMatrix (2, 2) [0; 1; 0; 1]%Z [1; 0; 0; 1]%Z
                   (F64 [1 / 1 * 1 / 1; 1 / 1 * 1 / 2;
                         - (1 / 1) / 1; - (1 / 1) / 2]%R))
                [true; true; true; true]).
  assert (Hb : build_laplacian two_site_mesh PyNone PyNone None 1%R
               = Ok (SpMatrix (2, 2) [0; 1; 0; 1]%Z [1; 0; 0; 1]%Z
                       (F64 [1 / 1 * 1 / 1; 1 / 1 * 1 / 2;
                             - (1 / 1) / 1; - (1 / 1) / 2]%R),
                     [true; true; true; true])).
  { vm_compute. reflexivity. }
  specialize (H Hb 0%Z 1%Z).
  apply (f_equal Re) in H. vm_compute in H. lra.
Qed.

(** ** The theorems at concrete inputs *)

Lemma site_ok_strip_0 : Forall (site_ok strip_mesh) [0%Z].
Proof. repeat constructor; simpl; lia. Qed.

Lemma site_ok_strip_0_2 : Forall (site_ok strip_mesh) [0%Z; 2%Z].
Proof. repeat constructor; simpl; lia. Qed.

Lemma wf_default_builder : wf_builder builder_store default_builder strip_mesh.
Proof.
  split; [done|]. split; [apply wf_strip_mesh|].
  split; by eexists.
Qed.

Lemma laplacian_assembly_witness :
  wf_mesh strip_mesh
  ∧ wf_link_exponents strip_mesh (PyArray [(0, 0); (1, 0)]%R)
  ∧ Forall (site_ok strip_mesh) [0%Z]
  ∧ [0%Z] ≠ []
  ∧ ∃ L mask,
      build_laplacian strip_mesh (PyArray [(0, 0); (1, 0)]%R) (PyArray [0%Z])
        None 1%R = Ok (L, mask)
      ∧ triplets L
        = filter (λ t, t.1.1 ∉ [0%Z])
            (laplacian_general strip_mesh (PyArray [(0, 0); (1, 0)]%R))
          ++ fixed_diagonal [0%Z] 1%R.
Proof.
  split; [apply wf_strip_mesh|]. split; [reflexivity|].
  split; [apply site_ok_strip_0|]. split; [discriminate|].
  apply (laplacian_assembly strip_mesh (PyArray [(0, 0); (1, 0)]%R) [0%Z] 1%R).
  - apply wf_strip_mesh.
  - reflexivity.
  - apply site_ok_strip_0.
  - discriminate.
Defined.

Lemma laplacian_weighted_symmetry_witness :
  wf_mesh strip_mesh
  ∧ wf_link_exponents strip_mesh PyNone
  ∧ ∃ L mask,
      build_laplacian strip_mesh PyNone PyNone None 1%R = Ok (L, mask)
      ∧ is_real (data L) = true.
Proof.
  split; [apply wf_strip_mesh|]. split; [exact I|].
  destruct (laplacian_weighted_symmetry strip_mesh PyNone 1%R wf_strip_mesh I)
    as (L & mask & HL & Hreal & _).
  by exists L, mask.
Defined.

Lemma laplacian_fixed_rows_witness :
  wf_mesh strip_mesh
  ∧ wf_link_exponents strip_mesh PyNone
  ∧ Forall (site_ok strip_mesh) [0%Z; 2%Z]
  ∧ NoDup [0%Z; 2%Z]
  ∧ [0%Z; 2%Z] ≠ []
  ∧ ∃ L mask,
      build_laplacian strip_mesh PyNone (PyArray [0%Z; 2%Z]) None 3%R
      = Ok (L, mask)
      ∧ ∀ f j, f ∈ [0%Z; 2%Z] →
               entry L f j = if decide (j = f) then RtoC 3 else C0.
Proof.
  assert (Hnd : NoDup [0%Z; 2%Z]).
  { apply NoDup_cons. split; [|apply NoDup_singleton].
    intros Hin. apply list_elem_of_singleton in Hin. discriminate. }
  split; [apply wf_strip_mesh|]. split; [exact I|].
  split; [apply site_ok_strip_0_2|]. split; [exact Hnd|]. split; [discriminate|].
  apply (laplacian_fixed_rows strip_mesh PyNone [0%Z; 2%Z] 3%R).
  - apply wf_strip_mesh.
  - exact I.
  - apply site_ok_strip_0_2.
  - exact Hnd.
  - discriminate.
Defined.

Lemma laplacian_mask_roundtrip_witness :
  build_laplacian strip_mesh PyNone (PyArray [0%Z])
    (Some (free_mask strip_mesh (PyArray [0%Z]) None)) 1%R
  = build_laplacian strip_mesh PyNone (PyArray [0%Z]) None 1%R.
Proof.
  exact (proj1 (laplacian_mask_roundtrip strip_mesh PyNone (PyArray [0%Z]) 1%R)).
Defined.

Lemma gradient_operator_witness :
  wf_mesh strip_mesh
  ∧ wf_link_exponents strip_mesh (PyArray [(0, 0); (1, 0)]%R)
  ∧ ∃ G, build_gradient strip_mesh (PyArray [(0, 0); (1, 0)]%R) = Ok G
         ∧ shape G = (2, 3).
Proof.
  split; [apply wf_strip_mesh|]. split; [reflexivity|].
  destruct (gradient_operator strip_mesh (PyArray [(0, 0); (1, 0)]%R)
              wf_strip_mesh eq_refl) as (G & HG & Hshape & _).
  by exists G.
Defined.

Lemma divergence_operator_witness :
  wf_mesh strip_mesh
  ∧ ∃ D, build_divergence strip_mesh = Ok D ∧ shape D = (3, 2).
Proof.
  split; [apply wf_strip_mesh|].
  destruct (divergence_operator strip_mesh wf_strip_mesh)
    as [(D & HD & Hshape & _) _].
  by exists D.
Defined.

Lemma neumann_operator_witness :
  wf_mesh strip_mesh
  ∧ wf_fixed_sites strip_mesh (PyArray [0%Z])
  ∧ ∃ Nm, build_neumann_boundary_laplacian strip_mesh (PyArray [0%Z]) = Ok Nm
          ∧ shape Nm = (3, 2)
          ∧ ∀ f j, f ∈ [0%Z] → entry Nm f j = C0.
Proof.
  split; [apply wf_strip_mesh|]. split; [apply site_ok_strip_0|].
  destruct (neumann_operator strip_mesh (PyArray [0%Z])
              wf_strip_mesh site_ok_strip_0) as (Nm & HN & Hshape & _ & Hzero).
  by exists Nm.
Defined.

Lemma build_total_witness :
  builder_store.(builders) !! 1%positive = Some default_builder
  ∧ wf_builder builder_store default_builder strip_mesh
  ∧ wf_free_rows strip_mesh None
  ∧ (build 1%positive (Other "laplacian") None builder_store = Raise ValueError
     ↔ ∀ t, Other "laplacian" ≠ Member t)
  ∧ is_Ok (build 1%positive (Member GRADIENT) None builder_store).
Proof.
  split; [reflexivity|]. split; [apply wf_default_builder|]. split; [exact I|].
  split.
  - apply (proj1 (build_total builder_store 1%positive default_builder
                    strip_mesh (Other "laplacian") None eq_refl
                    wf_default_builder I)).
  - apply (proj2 (build_total builder_store 1%positive default_builder
                    strip_mesh (Member GRADIENT) None eq_refl
                    wf_default_builder I) GRADIENT eq_refl).
Defined.

Lemma clone_of_None_witness :
  builder_store.(builders) !! 1%positive = Some default_builder
  ∧ is_Ok (clone 1%positive builder_store).
Proof.
  split; [reflexivity|].
  apply (clone_of_None builder_store 1%positive default_builder eq_refl);
    reflexivity.
Defined.

(** ** Further properties at concrete inputs *)

Lemma site_ok_strip_1 : site_ok strip_mesh 1%Z.
Proof. unfold site_ok. simpl. lia. Qed.

Lemma divergence_of_gradient_witness :
  wf_mesh strip_mesh
  ∧ length [C1; C0; C1] = length strip_mesh.(x)
  ∧ ∃ G D L mask g,
      build_gradient strip_mesh PyNone = Ok G
      ∧ build_divergence strip_mesh = Ok D
      ∧ build_laplacian strip_mesh PyNone PyNone None 1%R = Ok (L, mask)
      ∧ matmul G [C1; C0; C1] = Ok g
      ∧ matmul D g = matmul L [C1; C0; C1].
Proof.
  split; [apply wf_strip_mesh|]. split; [reflexivity|].
  destruct (divergence_of_gradient strip_mesh 1%R wf_strip_mesh)
    as (G & D & L & mask & HG & HD & HL & H).
  destruct (H [C1; C0; C1] eq_refl) as (g & Hg & Heq & _).
  by exists G, D, L, mask, g.
Defined.

Lemma gradient_of_constant_witness :
  wf_mesh strip_mesh
  ∧ ∃ G, build_gradient strip_mesh PyNone = Ok G
         ∧ matmul G (replicate 3 C1) = Ok (replicate 2 C0).
Proof.
  split; [apply wf_strip_mesh|].
  exact (gradient_of_constant strip_mesh C1 wf_strip_mesh).
Defined.

Lemma laplacian_of_constant_witness :
  wf_mesh strip_mesh
  ∧ ∃ L mask, build_laplacian strip_mesh PyNone PyNone None 5%R = Ok (L, mask)
              ∧ matmul L (replicate 3 C1) = Ok (replicate 3 C0).
Proof.
  split; [apply wf_strip_mesh|].
  exact (laplacian_of_constant strip_mesh C1 5%R wf_strip_mesh).
Defined.

Lemma divergence_conserves_witness :
  wf_mesh strip_mesh
  ∧ length [C1; Ci] = length strip_mesh.(edge_mesh).(edges)
  ∧ ∃ D, build_divergence strip_mesh = Ok D
         ∧ Csum ((λ s, Cmult (RtoC (area strip_mesh (Z.of_nat s)))
                         (matvec D [C1; Ci] (Z.of_nat s)))
                   <$> seq 0 (length strip_mesh.(x)))
           = C0.
Proof.
  split; [apply wf_strip_mesh|]. split; [reflexivity|].
  destruct (divergence_conserves strip_mesh wf_strip_mesh) as (D & HD & H).
  exists D. split; [done|]. exact (H [C1; Ci] eq_refl).
Defined.

Lemma divergence_adjoint_of_gradient_witness :
  wf_mesh strip_mesh
  ∧ site_ok strip_mesh 1%Z
  ∧ 0 < length strip_mesh.(edge_mesh).(edges)
  ∧ ∃ G D, build_gradient strip_mesh PyNone = Ok G
           ∧ build_divergence strip_mesh = Ok D
           ∧ Cmult (RtoC (area strip_mesh 1%Z)) (entry D 1%Z 0%Z)
             = Copp (Cmult (RtoC (dual_length strip_mesh 0 * edge_length strip_mesh 0))
                       (entry G 0%Z 1%Z)).
Proof.
  assert (Hk : 0 < length strip_mesh.(edge_mesh).(edges)) by (simpl; lia).
  split; [apply wf_strip_mesh|]. split; [apply site_ok_strip_1|].
  split; [exact Hk|].
  destruct (divergence_adjoint_of_gradient strip_mesh wf_strip_mesh)
    as (G & D & HG & HD & H).
  exists G, D. split; [done|]. split; [done|].
  exact (H 1%Z 0 site_ok_strip_1 Hk).
Defined.

Lemma link_weights_unit_modulus_witness :
  ∃ lv,
    link_weights strip_mesh.(edge_mesh) (PyArray [(0, 0); (1, 0)]%R) 2 = Ok lv
    ∧ Forall (λ z, Cnorm2 z = 1%R ∧ Cmult z (Cconj z) = C1) (as_complex lv).
Proof.
  destruct (link_weights strip_mesh.(edge_mesh) (PyArray [(0, 0); (1, 0)]%R) 2)
    as [lv|] eqn:H; [|by vm_compute in H].
  exists lv. split; [done|].
  exact (link_weights_unit_modulus _ _ _ lv H).
Defined.



Lemma laplacian_free_rows_kept_witness :
  wf_mesh strip_mesh
  ∧ wf_link_exponents strip_mesh PyNone
  ∧ Forall (site_ok strip_mesh) [0%Z]
  ∧ ∃ L mask L0 mask0,
      build_laplacian strip_mesh PyNone (PyArray [0%Z]) None 3%R = Ok (L, mask)
      ∧ build_laplacian strip_mesh PyNone PyNone None 1%R = Ok (L0, mask0)
      ∧ ∀ i j, i ∉ [0%Z] → entry L i j = entry L0 i j.
Proof.
  split; [apply wf_strip_mesh|]. split; [exact I|].
  split; [apply site_ok_strip_0|].
  exact (laplacian_free_rows_kept strip_mesh PyNone [0%Z] 3%R 1%R
           wf_strip_mesh I site_ok_strip_0).
Defined.

Lemma site_ok_strip_0_0 : Forall (site_ok strip_mesh) [0%Z; 0%Z].
Proof. repeat constructor; simpl; lia. Qed.

Lemma laplacian_repeated_fixed_site_witness :
  wf_mesh strip_mesh
  ∧ wf_link_exponents strip_mesh PyNone
  ∧ Forall (site_ok strip_mesh) [0%Z; 0%Z]
  ∧ 0%Z ∈ [0%Z; 0%Z]
  ∧ ∃ L mask,
      build_laplacian strip_mesh PyNone (PyArray [0%Z; 0%Z]) None 3%R
      = Ok (L, mask)
      ∧ entry L 0%Z 0%Z
        = RtoC (INR (length (filter (λ g, g = 0%Z) [0%Z; 0%Z])) * 3).
Proof.
  assert (Hin : 0%Z ∈ [0%Z; 0%Z]) by (by left).
  split; [apply wf_strip_mesh|]. split; [exact I|].
  split; [apply site_ok_strip_0_0|]. split; [exact Hin|].
  destruct (laplacian_repeated_fixed_site strip_mesh PyNone [0%Z; 0%Z] 3%R
              wf_strip_mesh I site_ok_strip_0_0) as (L & mask & HL & H).
  exists L, mask. split; [done|]. exact (H 0%Z Hin).
Defined.


Lemma laplacian_mask_reuse_witness :
  ∃ L mask,
    build_laplacian strip_mesh PyNone (PyArray [0%Z]) None 1%R = Ok (L, mask)
    ∧ build_laplacian strip_mesh (PyArray [(0, 0); (1, 0)]%R) (PyArray [0%Z])
        (Some mask) 2%R
      = build_laplacian strip_mesh (PyArray [(0, 0); (1, 0)]%R) (PyArray [0%Z])
          None 2%R.
Proof.
  destruct (build_laplacian strip_mesh PyNone (PyArray [0%Z]) None 1%R)
    as [[L mask]|] eqn:H; [|by vm_compute in H].
  exists L, mask. split; [done|].
  exact (laplacian_mask_reuse strip_mesh PyNone (PyArray [(0, 0); (1, 0)]%R)
           (PyArray [0%Z]) 1%R 2%R L mask H).
Defined.

Lemma neumann_conserves_flux_witness :
  wf_mesh strip_mesh
  ∧ 0 < length strip_mesh.(edge_mesh).(boundary_edge_indices)
  ∧ ∃ Nm, build_neumann_boundary_laplacian strip_mesh PyNone = Ok Nm
          ∧ Csum ((λ s, Cmult (RtoC (area strip_mesh (Z.of_nat s)))
                          (entry Nm (Z.of_nat s) 0%Z))
                    <$> seq 0 (length strip_mesh.(x)))
            = RtoC (boundary_length strip_mesh 0).
Proof.
  assert (Hk : 0 < length strip_mesh.(edge_mesh).(boundary_edge_indices))
    by (simpl; lia).
  split; [apply wf_strip_mesh|]. split; [exact Hk|].
  destruct (neumann_conserves_flux strip_mesh wf_strip_mesh) as (Nm & HN & H).
  exists Nm. split; [done|]. exact (H 0 Hk).
Defined.

Lemma strip_index_minus_1 :
  Forall (λ i, (- Z.of_nat (length strip_mesh.(x)) ≤ i
                < Z.of_nat (length strip_mesh.(x)))%Z) [(-1)%Z].
Proof. repeat constructor; simpl; lia. Qed.

Lemma neumann_negative_index_wraps_witness :
  wf_mesh strip_mesh
  ∧ Forall (λ i, (- Z.of_nat (length strip_mesh.(x)) ≤ i
                  < Z.of_nat (length strip_mesh.(x)))%Z) [(-1)%Z]
  ∧ build_neumann_boundary_laplacian strip_mesh (PyArray [(-1)%Z])
    = build_neumann_boundary_laplacian strip_mesh (PyArray [2%Z]).
Proof.
  split; [apply wf_strip_mesh|]. split; [apply strip_index_minus_1|].
  exact (proj2 (neumann_negative_index_wraps strip_mesh [(-1)%Z]
                  wf_strip_mesh strip_index_minus_1)).
Defined.



Lemma new_builder_builds_plain_operators_witness :
  strip_store.(meshes) !! 1%positive = Some strip_mesh
  ∧ MatrixBuilder_init 1%positive strip_store = Ok (1%positive, builder_store)
  ∧ build 1%positive (Member GRADIENT) None builder_store
    = RetMatrix <$> build_gradient strip_mesh PyNone.
Proof.
  assert (Hinit : MatrixBuilder_init 1%positive strip_store
                  = Ok (1%positive, builder_store)) by (vm_compute; reflexivity).
  split; [reflexivity|]. split; [exact Hinit|].
  destruct (new_builder_builds_plain_operators strip_store builder_store
              1%positive 1%positive strip_mesh eq_refl Hinit) as (_ & HG & _).
  exact (HG None).
Defined.

Lemma with_dirichlet_boundary_sets_witness :
  configured_store.(builders) !! 1%positive = Some configured_builder
  ∧ configured_store.(meshes) !! configured_builder.(mesh) = Some strip_mesh
  ∧ ∃ r σ',
      with_dirichlet_boundary 1%positive (PyList [2%Z]) 3%R configured_store
      = Ok (r, σ')
      ∧ r = 1%positive
      ∧ build 1%positive (Member NEUMANN_BOUNDARY_LAPLACIAN) None σ'
        = RetMatrix <$> build_neumann_boundary_laplacian strip_mesh (PyArray [2%Z]).
Proof.
  split; [reflexivity|]. split; [reflexivity|].
  destruct (with_dirichlet_boundary 1%positive (PyList [2%Z]) 3%R configured_store)
    as [[r σ']|] eqn:H; [|by vm_compute in H].
  exists r, σ'. split; [done|].
  destruct (with_dirichlet_boundary_sets configured_store σ' 1%positive r
              configured_builder strip_mesh [2%Z] 3%R eq_refl eq_refl H)
    as (Hr & HN & _).
  split; [exact Hr|exact (HN None)].
Defined.

Lemma with_link_exponents_sets_witness :
  configured_store.(builders) !! 1%positive = Some configured_builder
  ∧ configured_store.(meshes) !! configured_builder.(mesh) = Some strip_mesh
  ∧ ∃ r σ',
      with_link_exponents 1%positive (PyList [(0, 1); (0, 1)]%R) configured_store
      = Ok (r, σ')
      ∧ r = 1%positive
      ∧ build 1%positive (Member GRADIENT) None σ'
        = RetMatrix <$> build_gradient strip_mesh (PyArray [(0, 1); (0, 1)]%R).
Proof.
  split; [reflexivity|]. split; [reflexivity|].
  destruct (with_link_exponents 1%positive (PyList [(0, 1); (0, 1)]%R)
              configured_store) as [[r σ']|] eqn:H; [|by vm_compute in H].
  exists r, σ'. split; [done|].
  destruct (with_link_exponents_sets configured_store σ' 1%positive r
              configured_builder strip_mesh [(0, 1); (0, 1)]%R eq_refl eq_refl H)
    as (Hr & HG & _).
  split; [exact Hr|exact (HG None)].
Defined.

Lemma with_dirichlet_boundary_aliases_witness :
  configured_store.(builders) !! 1%positive = Some configured_builder
  ∧ configured_store.(meshes) !! configured_builder.(mesh) = Some strip_mesh
  ∧ configured_store.(int_arrays) !! 1%positive = Some (NdArray [0%Z])
  ∧ 0 < length [0%Z]
  ∧ ∃ σ1 ints,
      with_dirichlet_boundary 1%positive (NdArrayRef 1%positive) 3%R
        configured_store = Ok (1%positive, σ1)
      ∧ ndarray_setitem σ1.(int_arrays) (Some 1%positive) 0 2%Z = Ok ints
      ∧ build 1%positive (Member NEUMANN_BOUNDARY_LAPLACIAN) None
          (Store σ1.(meshes) ints σ1.(float_arrays) σ1.(builders))
        = RetMatrix <$> build_neumann_boundary_laplacian strip_mesh (PyArray [2%Z]).
Proof.
  assert (Hi : 0 < length [0%Z]) by (simpl; lia).
  split; [reflexivity|]. split; [reflexivity|]. split; [reflexivity|].
  split; [exact Hi|].
  destruct (with_dirichlet_boundary_aliases configured_store 1%positive
              1%positive configured_builder strip_mesh [0%Z] 3%R 0 2%Z
              eq_refl eq_refl eq_refl Hi) as (σ1 & ints & Hset & Hw & H).
  exists σ1, ints. split; [done|]. split; [done|]. exact (proj2 (H None)).
Defined.


Lemma clone_isolation_witness :
  configured_store.(builders) !! 1%positive = Some configured_builder
  ∧ ∃ c σ1 σ2,
      clone 1%positive configured_store = Ok (c, σ1)
      ∧ mutate_all 1%positive
          [AssignFixedSite 0 2%Z; SetDirichlet (PyList [1%Z]) 5%R] σ1 = Ok σ2
      ∧ ∀ matrix_type free_rows,
          build c matrix_type free_rows σ2 = build c matrix_type free_rows σ1.
Proof.
  split; [reflexivity|].
  destruct (clone 1%positive configured_store) as [[c σ1]|] eqn:Hclone;
    [|by vm_compute in Hclone].
  destruct (clone_isolation configured_store σ1 1%positive c configured_builder
              eq_refl Hclone) as (bc & _ & _ & Hiso).
  vm_compute in Hclone. injection Hclone as <- <-.
  eexists _, _, _. split; [reflexivity|]. split; [vm_compute; reflexivity|].
  intros mt fr.
  apply (Hiso [AssignFixedSite 0 2%Z; SetDirichlet (PyList [1%Z]) 5%R]).
  - by repeat constructor.
  - vm_compute. reflexivity.
Defined.

Lemma clone_builds_same_witness :
  configured_store.(builders) !! 1%positive = Some configured_builder
  ∧ is_Some configured_builder.(fixed_sites)
  ∧ is_Some configured_builder.(link_exponents)
  ∧ ∃ c σ1,
      clone 1%positive configured_store = Ok (c, σ1)
      ∧ ∀ matrix_type free_rows,
          build c matrix_type free_rows σ1
          = build 1%positive matrix_type free_rows configured_store.
Proof.
  assert (Hfs : is_Some configured_builder.(fixed_sites)) by (by eexists).
  assert (Hle : is_Some configured_builder.(link_exponents)) by (by eexists).
  split; [reflexivity|]. split; [exact Hfs|]. split; [exact Hle|].
  destruct (clone 1%positive configured_store) as [[c σ1]|] eqn:Hclone;
    [|by vm_compute in Hclone].
  exists c, σ1. split; [done|].
  exact (clone_builds_same configured_store σ1 1%positive c configured_builder
           eq_refl Hfs Hle Hclone).
Defined.

Lemma clone_keeps_existing_builders_witness :
  ∃ c σ1 out,
    clone 1%positive configured_store = Ok (c, σ1)
    ∧ build 1%positive (Member LAPLACIAN) None configured_store = Ok out
    ∧ c ≠ 1%positive
    ∧ build 1%positive (Member LAPLACIAN) None σ1 = Ok out.
Proof.
  destruct (clone 1%positive configured_store) as [[c σ1]|] eqn:Hclone;
    [|by vm_compute in Hclone].
  destruct (build 1%positive (Member LAPLACIAN) None configured_store)
    as [out|] eqn:Hout; [|by vm_compute in Hout].
  exists c, σ1, out. split; [done|]. split; [done|].
  exact (clone_keeps_existing_builders configured_store σ1 1%positive c
           1%positive (Member LAPLACIAN) None out Hclone Hout).
Defined.

Lemma get_state_string_skips_timestamp_witness :
  filter (λ kv : string * state_value, kv.1 ≠ "timestamp")
    [("timestamp", PyValue "12"); ("dt", Float64 1%R)]
  = filter (λ kv : string * state_value, kv.1 ≠ "timestamp")
      [("dt", Float64 1%R)]
  ∧ get_state_string
      (λ (_ : unit) (_ : Z), [("timestamp", PyValue "12"); ("dt", Float64 1%R)])
      (λ _, "1.00e+00") () 3%Z 10%Z
    = get_state_string (λ (_ : unit) (_ : Z), [("dt", Float64 1%R)])
        (λ _, "1.00e+00") () 3%Z 10%Z.
Proof.
  assert (H : filter (λ kv : string * state_value, kv.1 ≠ "timestamp")
                [("timestamp", PyValue "12"); ("dt", Float64 1%R)]
              = filter (λ kv : string * state_value, kv.1 ≠ "timestamp")
                  [("dt", Float64 1%R)]) by (vm_compute; reflexivity).
  split; [exact H|].
  exact (get_state_string_skips_timestamp
           (λ (_ : unit) (_ : Z), [("timestamp", PyValue "12"); ("dt", Float64 1%R)])
           (λ (_ : unit) (_ : Z), [("dt", Float64 1%R)])
           (λ _, "1.00e+00") () 3%Z 10%Z H).
Defined.

